(** * Supergraph handler (packages/legacy/handlers/supergraph/src/index.ts)

    A shallow embedding of the [SupergraphHandler] class and of
    [handleSupergraphResponse], with the properties of the loader, of the
    join-graph name map and of the per-subgraph executor options.

    JavaScript strings are modelled as [string] (one [ascii] per code unit),
    [Map<string, string>] and header objects as [gmap string string],
    optional fields ([x?: T], [undefined], [null]) as [option]. *)

From Stdlib Require Import Ascii.
From stdpp Require Import gmap strings list fin_maps pretty.

(** ** JavaScript string primitives used by the handler *)

Module JSString.

(** [s.startsWith(pat)] *)
Fixpoint startsWith (pat s : string) : bool :=
  match pat, s with
  | EmptyString, _ => true
  | String a pat', String b s' =>
      if decide (a = b) then startsWith pat' s' else false
  | String _ _, EmptyString => false
  end.

(** [s.indexOf(pat)]: the position of the first occurrence of [pat] in [s];
    [None] stands for [-1]. *)
Fixpoint indexOf (pat s : string) : option nat :=
  if startsWith pat s then Some 0
  else match s with
       | EmptyString => None
       | String _ s' => S <$> indexOf pat s'
       end.

(** [s.substring(from)] *)
Fixpoint substringFrom (from : nat) (s : string) : string :=
  match from, s with
  | 0, _ => s
  | S n, String _ s' => substringFrom n s'
  | S _, EmptyString => EmptyString
  end.

(** [s.substring(0, to)] *)
Fixpoint substringTo (to : nat) (s : string) : string :=
  match to, s with
  | 0, _ => EmptyString
  | S n, String c s' => String c (substringTo n s')
  | S _, EmptyString => EmptyString
  end.

(** The abstract operation GetSubstitution of ECMA-262 at a match without
    capture groups (the search value is a string, not a regular
    expression).  In the replacement template, [$$] stands for one dollar
    sign, [$&] for the matched text, [$`] for the text before the match and
    [$'] for the text after it; a dollar sign followed by anything else
    (digits and [$<] included, since there are no captures) is copied as it
    is. *)
Fixpoint GetSubstitution (matched preceding following template : string)
  : string :=
  match template with
  | EmptyString => EmptyString
  | String c rest =>
      if decide (c = "$"%char) then
        match rest with
        | String d rest' =>
            if decide (d = "$"%char) then
              String "$" (GetSubstitution matched preceding following rest')
            else if decide (d = "&"%char) then
              matched +:+ GetSubstitution matched preceding following rest'
            else if decide (d = "`"%char) then
              preceding +:+ GetSubstitution matched preceding following rest'
            else if decide (d = "'"%char) then
              following +:+ GetSubstitution matched preceding following rest'
            else String c (GetSubstitution matched preceding following rest)
        | EmptyString => String c EmptyString
        end
      else String c (GetSubstitution matched preceding following rest)
  end.

(** [s.replace(searchValue, replaceValue)] with both arguments strings
    (String.prototype.replace, the branch where [searchValue] has no
    [Symbol.replace] method and [replaceValue] is not callable): only the
    first occurrence is replaced, the replacement goes through
    [GetSubstitution]. *)
Definition replace (s searchValue replaceValue : string) : string :=
  match indexOf searchValue s with
  | None => s
  | Some pos =>
      let preceding := substringTo pos s in
      let following := substringFrom (pos + String.length searchValue) s in
      preceding
        +:+ GetSubstitution searchValue preceding following replaceValue
        +:+ following
  end.

(** [sub] occurs in [s] at offset [k]. *)
Definition occurs_at (sub s : string) (k : nat) : Prop :=
  ∃ pre post, s = pre +:+ sub +:+ post ∧ String.length pre = k.

(** [sub] occurs somewhere in [s]. *)
Definition contains (sub s : string) : Prop :=
  ∃ pre post, s = pre +:+ sub +:+ post.

(** The characters of a string. *)
Fixpoint chars (s : string) : list ascii :=
  match s with
  | EmptyString => []
  | String c s' => c :: chars s'
  end.

End JSString.

Import JSString.

(** ** The part of the GraphQL AST that the handler reads

    Fields the handler never looks at (locations, descriptions, the
    directives of the enum type itself, the contents of list and object
    values, ...) are left out.  The optional
    arrays [values?], [directives?] and [arguments?] are [option]s. *)

Inductive ValueNode : Type :=
  | VariableValue (name : string)
  | IntValue (value : string)
  | FloatValue (value : string)
  | StringValue (value : string)
  | BooleanValue (value : bool)
  | NullValue
  | EnumValue (value : string)
  | ListValue
  | ObjectValue.

Record ArgumentNode : Type := mkArgument {
  arg_name : string;
  arg_value : ValueNode;
}.

Record DirectiveNode : Type := mkDirective {
  dir_name : string;
  dir_arguments : option (list ArgumentNode);
}.

Record EnumValueDefinitionNode : Type := mkEnumValue {
  ev_name : string;
  ev_directives : option (list DirectiveNode);
}.

(** The kinds of top-level definitions other than an enum type. *)
Inductive OtherKind : Type :=
  | SchemaDefinition | ScalarTypeDefinition | ObjectTypeDefinition
  | InterfaceTypeDefinition | UnionTypeDefinition
  | InputObjectTypeDefinition | DirectiveDefinition
  | OperationDefinition | FragmentDefinition | ExtensionDefinition.

Inductive DefinitionNode : Type :=
  | EnumTypeDefinition (name : string)
                       (values : option (list EnumValueDefinitionNode))
  | OtherDefinition (kind : OtherKind) (name : option string).

(** Object identity: [parse] builds a new object on every call
    ([Allocated]); an object handed over by a retrieval collaborator carries
    the identity that collaborator gave it ([Foreign]). *)
Inductive ObjRef : Type :=
  | Allocated (n : nat)
  | Foreign (n : nat).

(** ** JavaScript values and exceptions *)

(** An object as the handler sees it: its identity, its [kind] property
    ([None] when it is missing) and its [definitions].  The declared type of
    every such value is [DocumentNode]; only [kind] tells at run time whether
    it is one. *)
Record DocumentNode : Type := mkDocument {
  doc_ref : ObjRef;
  doc_kind : option string;
  definitions : list DefinitionNode;
}.

(** What [readUrl] and [readFile] may resolve to at run time.  The declared
    type is [string | DocumentNode]; the handler inspects the value, so the
    other shapes are part of the model.  [JSObject] is an object with a
    [definitions] array, a finite tree as the type [DocumentNode] says, which
    [JSON.stringify] renders.  [JSOther] is any other object (a plain
    object, an array, a function, a cyclic structure, an object that holds a
    BigInt): of such a value the handler reads the [kind] property and may
    ask [JSON.stringify] for a rendering, so it carries its identity, its
    [kind] and the outcome of [JSON.stringify].  The handler reads
    [definitions] only of an object of kind [Document]; of a [JSOther] of
    that kind they are [undefined]. *)
Inductive JSONOutcome : Type :=
  | JSONThrows (reason : string)     (* a TypeError: cyclic, a BigInt inside *)
  | JSONText (text : option string). (* the text, or [undefined] *)

Inductive JSValue : Type :=
  | JSUndefined
  | JSNull
  | JSBoolean (b : bool)
  | JSNumber (n : Z)
  | JSBigInt (n : Z)
  | JSString (s : string)
  | JSObject (o : DocumentNode)
  | JSOther (ref : ObjRef) (kind : option string) (json : JSONOutcome).

(** A thrown value: [new Error(message)] and the errors of the libraries,
    the [TypeError] that the engine raises, or any other value, since a
    promise may be rejected with, and [throw] may throw, whatever value
    there is. *)
Inductive Exn : Type :=
  | Error (message : string)
  | TypeError (message : string)
  | Thrown (v : JSValue).

(** [e.message]: the message of an error object; [undefined] on a thrown
    value that is no error object; a [TypeError] on [undefined] and
    [null]. *)
Definition get_message (e : Exn) : Exn + option string :=
  match e with
  | Error m | TypeError m => inr (Some m)
  | Thrown JSUndefined =>
      inl (TypeError "Cannot read properties of undefined (reading 'message')")
  | Thrown JSNull =>
      inl (TypeError "Cannot read properties of null (reading 'message')")
  | Thrown _ => inr None
  end.

(** [v.kind] *)
Definition get_kind (v : JSValue) : Exn + option string :=
  match v with
  | JSUndefined =>
      inl (TypeError "Cannot read properties of undefined (reading 'kind')")
  | JSNull =>
      inl (TypeError "Cannot read properties of null (reading 'kind')")
  | JSObject o => inr (doc_kind o)
  | JSOther _ kind _ => inr kind
  | JSBoolean _ | JSNumber _ | JSBigInt _ | JSString _ => inr None
  end.

(** [v?.kind] *)
Definition get_kind_opt (v : JSValue) : Exn + option string :=
  match v with
  | JSUndefined | JSNull => inr None
  | _ => get_kind v
  end.

(** The line feed of the [\n] escapes in the error messages. *)
Definition LF : string := String (ascii_of_nat 10) EmptyString.

(** ** Configuration (YamlConfig.Handler['supergraph']) *)

(** [Record<string, string>]: header templates and evaluated headers. *)
Abbreviation Headers := (gmap string string).

Record SubgraphConfiguration : Type := mkSubgraphConfiguration {
  sc_name : string;
  sc_endpoint : option string;
  sc_operationHeaders : option Headers;
}.

Record SupergraphConfig : Type := mkConfig {
  cfg_source : string;
  cfg_schemaHeaders : option Headers;
  cfg_operationHeaders : option Headers;
  cfg_batch : option bool;
  cfg_subgraphs : option (list SubgraphConfiguration);
}.

(** The record that the schema assembler passes to [onSubschemaConfig]. *)
Record SubschemaConfig : Type := mkSubschemaConfig {
  ssc_name : string;
  ssc_endpoint : string;
}.

(** ** Collaborators

    Everything the handler imports and calls but does not define: the
    string interpolation package, [isUrl], [readUrl] and [readFile] (the
    outcome of a retrieval as a function of its arguments, so that the
    underlying resource does not change between calls), the text parser of
    graphql-js (what it throws is left open, as for the retrievals), the text
    that [JSON.stringify] makes of a number, of a string and of an object
    shaped as a [DocumentNode], the process environment and the
    request-scoped values, which the handler only passes along. *)
Class RequestTypes : Type := {
  Env : Type;
  Root : Type;
  ReqContext : Type;
  ReqInfo : Type;
  Variables : Type;
}.

(** [ResolverData]: the variables offered to a template; every field but
    [env] may be missing. *)
Record ResolverData `{RequestTypes} : Type := mkResolverData {
  rd_root : option Root;
  rd_env : Env;
  rd_context : option ReqContext;
  rd_info : option ReqInfo;
  rd_args : option Variables;
}.

(** The request handed to the [headers] option of the HTTP executor. *)
Record ExecutorRequest `{RequestTypes} : Type := mkExecutorRequest {
  er_rootValue : option Root;
  er_context : option ReqContext;
  er_info : option ReqInfo;
  er_variables : option Variables;
}.

Class Host `{RequestTypes} : Type := {
  process_env : Env;
  stringInterpolator_parse : string → ResolverData → string;
  getInterpolatedStringFactory : string → ResolverData → string;
  getInterpolatedHeadersFactory : option Headers → ResolverData → Headers;
  isUrl : string → bool;
  readUrl_outcome : string → Headers → string → Exn + JSValue;
  readFile_outcome : string → Headers → string → Exn + JSValue;
  parse_text : string → Exn + list DefinitionNode;
  JSON_text : JSValue → string;
}.

(** ** The world the handler runs in *)

(** What the handler does to its collaborators, in order. *)
Inductive Event : Type :=
  | ReadUrlCall (location : string) (headers : Headers) (cwd : string)
  | ReadFileCall (location : string) (headers : Headers) (cwd : string)
  | StoreGet (id : string)
  | StoreSet (id : string).

Record World : Type := mkWorld {
  store : gmap string JSValue;   (* the mesh store, by proxy id *)
  next_ref : nat;                (* the next object [parse] allocates *)
  trace : list Event;
}.

Definition log (e : Event) (w : World) : World :=
  {| store := store w; next_ref := next_ref w; trace := trace w ++ [e] |}.

Definition is_ReadUrlCall (e : Event) : bool :=
  match e with ReadUrlCall _ _ _ => true | _ => false end.
Definition is_ReadFileCall (e : Event) : bool :=
  match e with ReadFileCall _ _ _ => true | _ => false end.
Definition is_store_access (e : Event) : bool :=
  match e with StoreGet _ | StoreSet _ => true | _ => false end.

Definition count (p : Event → bool) (t : list Event) : nat :=
  length (List.filter p t).

(** Computations that read and change the world and may throw; an [async]
    function awaited at once is such a computation. *)
Definition M (A : Type) : Type := World → (Exn + A) * World.

#[export] Instance M_ret : MRet M := λ A x w, (inr x, w).
#[export] Instance M_bind : MBind M := λ A B f m w,
  match m w with
  | (inr x, w') => f x w'
  | (inl e, w') => (inl e, w')
  end.

Definition throw {A} (e : Exn) : M A := λ w, (inl e, w).

(** [try { body } catch (e) { handler }], also [promise.catch(handler)]. *)
Definition try_catch {A} (body : M A) (handler : Exn → M A) : M A := λ w,
  match body w with
  | (inr x, w') => (inr x, w')
  | (inl e, w') => handler e w'
  end.

Definition lift {A} (r : Exn + A) : M A := λ w, (r, w).

Section Handler.
Context `{Host}.

(** *** Collaborators as computations *)

Definition readUrl (location : string) (headers : Headers) (cwd : string)
  : M JSValue := λ w,
  (readUrl_outcome location headers cwd,
   log (ReadUrlCall location headers cwd) w).

Definition readFile (location : string) (headers : Headers) (cwd : string)
  : M JSValue := λ w,
  (readFile_outcome location headers cwd,
   log (ReadFileCall location headers cwd) w).

(** [parse(text, { noLocation: true })]: a syntax error is thrown, a
    document is a new object of kind [Document]. *)
Definition parse (text : string) : M JSValue := λ w,
  match parse_text text with
  | inl e => (inl e, w)
  | inr defs =>
      (inr (JSObject {| doc_ref := Allocated (next_ref w);
                        doc_kind := Some "Document";
                        definitions := defs |}),
       {| store := store w; next_ref := S (next_ref w);
          trace := trace w |})
  end.

(** A value inside a template literal: [undefined] prints as such. *)
Definition template_string (s : option string) : string :=
  default "undefined" s.

(** [JSON.stringify(v, null, 2)]: [undefined] has no rendering, a BigInt
    makes it throw, and so does an object that it cannot walk. *)
Definition JSON_stringify (v : JSValue) : Exn + option string :=
  match v with
  | JSUndefined => inr None
  | JSNull => inr (Some "null")
  | JSBoolean b => inr (Some (if b then "true" else "false"))
  | JSBigInt _ => inl (TypeError "Do not know how to serialize a BigInt")
  | JSOther _ _ (JSONThrows reason) => inl (TypeError reason)
  | JSOther _ _ (JSONText text) => inr text
  | JSNumber _ | JSString _ | JSObject _ => inr (Some (JSON_text v))
  end.

(** Modelled from the spec: [StoreProxy.getWithSet] of the mesh store
    (@graphql-mesh/store), whose code is not among the sources.  The cache
    is consulted under the proxy's id; on a miss the setter runs and its
    result is stored; on a hit the stored value is returned and the setter
    does not run. *)
Definition getWithSet (id : string) (setterFn : M JSValue) : M JSValue :=
  λ w,
  let w := log (StoreGet id) w in
  match store w !! id with
  | Some cached => (inr cached, w)
  | None =>
      match setterFn w with
      | (inr value, w') =>
          (inr value,
           log (StoreSet id)
             {| store := <[id := value]> (store w');
                next_ref := next_ref w'; trace := trace w' |})
      | (inl e, w') => (inl e, w')
      end
  end.

(** *** The handler *)

Record SupergraphHandler : Type := mkHandler {
  config : SupergraphConfig;
  baseDir : string;
  supergraphSdl : string;   (* the id of the store proxy *)
}.

(** The constructor. *)
Definition new_SupergraphHandler (config : SupergraphConfig)
    (baseDir : string) : SupergraphHandler :=
  {| config := config; baseDir := baseDir;
     supergraphSdl := "nonExecutableSchema" |}.

Definition invalid_result_prefix (interpolatedSource : string) : string :=
  "Supergraph source must be a valid GraphQL SDL string or a parsed DocumentNode, but got an invalid result from "
    +:+ interpolatedSource +:+ " instead." +:+ LF +:+ " Got result: ".

Definition handleSupergraphResponse (sdlOrDocumentNode : JSValue)
    (interpolatedSource : string) : M JSValue :=
  match sdlOrDocumentNode with
  | JSString sdl =>
      try_catch (parse sdl) (λ e,
        message ← lift (get_message e);
        throw (Error (invalid_result_prefix interpolatedSource
                        +:+ sdl +:+ LF +:+ " Got error: "
                        +:+ template_string message)))
  | _ =>
      kind ← lift (get_kind_opt sdlOrDocumentNode);
      if bool_decide (kind ≠ Some "Document") then
        rendering ← lift (JSON_stringify sdlOrDocumentNode);
        throw (Error (invalid_result_prefix interpolatedSource
                        +:+ template_string rendering))
      else mret sdlOrDocumentNode
  end.

Definition env_only : ResolverData :=
  {| rd_root := None; rd_env := process_env; rd_context := None;
     rd_info := None; rd_args := None |}.

(** What the handler of [.catch] throws: the new [Error], or the
    [TypeError] of reading [e.message] when that fails. *)
Definition load_failure (interpolatedSource : string) (e : Exn) : Exn :=
  match get_message e with
  | inl typeError => typeError
  | inr message =>
      Error ("Failed to load supergraph SDL from " +:+ interpolatedSource
               +:+ ":" +:+ LF +:+ " " +:+ template_string message)
  end.

Definition interpolatedSource_of (this : SupergraphHandler) : string :=
  stringInterpolator_parse (cfg_source (config this)) env_only.

Definition getSupergraphSdl (this : SupergraphHandler) : M JSValue :=
  let schemaHeadersFactory :=
    getInterpolatedHeadersFactory (cfg_schemaHeaders (config this)) in
  let interpolatedSource := interpolatedSource_of this in
  if isUrl interpolatedSource then
    res ← try_catch
             (readUrl interpolatedSource (schemaHeadersFactory env_only)
                (baseDir this))
             (λ e, throw (load_failure interpolatedSource e));
    handleSupergraphResponse res interpolatedSource
  else
    getWithSet (supergraphSdl this)
      (sdlOrIntrospection ← try_catch
         (readFile interpolatedSource (schemaHeadersFactory env_only)
            (baseDir this))
         (λ e, throw (load_failure interpolatedSource e));
       handleSupergraphResponse sdlOrIntrospection interpolatedSource).
End Handler.

(** ** The join-graph name map (getMeshSource, first half) *)

(** [xs?.forEach(f)] threading the state that [f] updates. *)
Definition forEach {A S : Type} (xs : option (list A)) (f : S → A → S)
    (s : S) : S :=
  match xs with
  | Some l => fold_left f l s
  | None => s
  end.

(** [def.kind === 'EnumTypeDefinition' && def.name.value === 'join__Graph'] *)
Definition is_joingraph_enum (def : DefinitionNode) : bool :=
  match def with
  | EnumTypeDefinition name _ => bool_decide (name = "join__Graph")
  | OtherDefinition _ _ => false
  end.

Definition joingraphEnum (supergraphSdl : DocumentNode)
    : option DefinitionNode :=
  List.find is_joingraph_enum (definitions supergraphSdl).

(** [directive.arguments?.find(arg => arg.name.value === 'name')] *)
Definition nameArg (directive : DirectiveNode) : option ArgumentNode :=
  match dir_arguments directive with
  | Some args => List.find (λ arg, bool_decide (arg_name arg = "name")) args
  | None => None
  end.

(** The body of the inner [forEach]: what one directive of the value named
    [value_name] does to the map. *)
Definition visit_directive (value_name : string) (m : gmap string string)
    (directive : DirectiveNode) : gmap string string :=
  if bool_decide (dir_name directive = "join__graph") then
    match nameArg directive with
    | Some {| arg_value := StringValue v |} => <[value_name := v]> m
    | _ => m
    end
  else m.

Definition visit_value (m : gmap string string)
    (value : EnumValueDefinitionNode) : gmap string string :=
  forEach (ev_directives value) (visit_directive (ev_name value)) m.

Definition subgraphNameIdMap (supergraphSdl : DocumentNode)
    : gmap string string :=
  match joingraphEnum supergraphSdl with
  | Some (EnumTypeDefinition _ values) => forEach values visit_value ∅
  | _ => ∅
  end.

(** ** The executor options of one subgraph (onSubschemaConfig) *)

(** [a || b] where [a] is an optional string: the empty string is falsy. *)
Definition or_string (a : option string) (b : string) : string :=
  match a with
  | Some EmptyString | None => b
  | Some s => s
  end.

(** [Object.assign(target, source)] on header objects. *)
Definition Object_assign (target source : Headers) : Headers :=
  source ∪ target.

Section ExecutorFactory.
Context `{Host}.

(** The options given to [buildHTTPExecutor]: the spread subgraph
    configuration, the endpoint, and the two callbacks.  [eo_fetch] is the
    URL with which the callback calls [fetchFn]. *)
Record HTTPExecutorOptions : Type := mkExecutorOptions {
  eo_spread : SubgraphConfiguration;
  eo_endpoint : string;
  eo_fetch : string → option ReqContext → option ReqInfo → string;
  eo_headers : ExecutorRequest → Headers;
}.

(** [subgraphConfigs.find(c => c.name === subgraphRealName) ||
    { name: subgraphName }] *)
Definition subgraphConfiguration_of
    (subgraphConfigs : list SubgraphConfiguration)
    (subgraphNameIdMap : gmap string string) (subgraphName : string)
  : SubgraphConfiguration :=
  let subgraphRealName := subgraphNameIdMap !! subgraphName in
  default
    {| sc_name := subgraphName; sc_endpoint := None;
       sc_operationHeaders := None |}
    (List.find (λ c, bool_decide (Some (sc_name c) = subgraphRealName))
       subgraphConfigs).

(** The [fetch] callback. *)
Definition fetch (nonInterpolatedEndpoint : string) (url : string)
    (context : option ReqContext) (info : option ReqInfo) : string :=
  let endpoint :=
    getInterpolatedStringFactory nonInterpolatedEndpoint
      {| rd_root := None; rd_env := process_env; rd_context := context;
         rd_info := info; rd_args := None |} in
  replace url nonInterpolatedEndpoint endpoint.

(** The [headers] callback. *)
Definition headers (subgraphConfiguration : SubgraphConfiguration)
    (operationHeadersFactory : option (ResolverData → Headers))
    (executorRequest : ExecutorRequest) : Headers :=
  let headers : Headers := ∅ in
  let resolverData :=
    {| rd_root := er_rootValue executorRequest;
       rd_env := process_env;
       rd_context := er_context executorRequest;
       rd_info := er_info executorRequest;
       rd_args := er_variables executorRequest |} in
  let headers :=
    match sc_operationHeaders subgraphConfiguration with
    | Some operationHeaders =>
        Object_assign headers
          (getInterpolatedHeadersFactory (Some operationHeaders)
             resolverData)
    | None => headers
    end in
  match operationHeadersFactory with
  | Some factory => Object_assign headers (factory resolverData)
  | None => headers
  end.

(** [operationHeaders != null ? getInterpolatedHeadersFactory(...)
    : undefined] *)
Definition operationHeadersFactory_of (config : SupergraphConfig)
  : option (ResolverData → Headers) :=
  match cfg_operationHeaders config with
  | Some operationHeaders =>
      Some (getInterpolatedHeadersFactory (Some operationHeaders))
  | None => None
  end.

Definition onSubschemaConfig (config : SupergraphConfig)
    (subgraphNameIdMap : gmap string string)
    (subgraphConfig : SubschemaConfig) : HTTPExecutorOptions :=
  let subgraphConfigs := default [] (cfg_subgraphs config) in
  let subgraphName := ssc_name subgraphConfig in
  let subgraphConfiguration :=
    subgraphConfiguration_of subgraphConfigs subgraphNameIdMap
      subgraphName in
  let nonInterpolatedEndpoint :=
    or_string (sc_endpoint subgraphConfiguration)
      (ssc_endpoint subgraphConfig) in
  {| eo_spread := subgraphConfiguration;
     eo_endpoint := nonInterpolatedEndpoint;
     eo_fetch := fetch nonInterpolatedEndpoint;
     eo_headers :=
       headers subgraphConfiguration (operationHeadersFactory_of config) |}.

(** What [getMeshSource] hands to [getStitchedSchemaFromSupergraphSdl]. *)
Record StitchingInput : Type := mkStitchingInput {
  si_supergraphSdl : DocumentNode;
  si_onSubschemaConfig : SubschemaConfig → HTTPExecutorOptions;
  si_batch : bool;
}.

(** The schema assembler, [getStitchedSchemaFromSupergraphSdl] of
    @graphql-tools/federation: the schema it returns, or what it throws. *)
Class Assembler : Type := {
  Schema : Type;
  getStitchedSchemaFromSupergraphSdl : StitchingInput → Exn + Schema;
}.

(** [supergraphSdl.definitions.find(...)] needs an object with a
    [definitions] array. *)
Definition as_object (v : JSValue) : M DocumentNode :=
  match v with
  | JSObject o => mret o
  | JSUndefined =>
      throw (TypeError "Cannot read properties of undefined (reading 'definitions')")
  | JSNull =>
      throw (TypeError "Cannot read properties of null (reading 'definitions')")
  | JSBoolean _ | JSNumber _ | JSBigInt _ | JSString _ | JSOther _ _ _ =>
      throw (TypeError "Cannot read properties of undefined (reading 'find')")
  end.

Definition getMeshSource `{Assembler} (this : SupergraphHandler) : M Schema :=
  loaded ← getSupergraphSdl this;
  supergraphSdl ← as_object loaded;
  lift (getStitchedSchemaFromSupergraphSdl
          {| si_supergraphSdl := supergraphSdl;
             si_onSubschemaConfig :=
               onSubschemaConfig (config this)
                 (subgraphNameIdMap supergraphSdl);
             si_batch := default true (cfg_batch (config this)) |}).
End ExecutorFactory.

(** ** Notions used to state the properties *)

(** [x] is the first element of [l] that satisfies [P]. *)
Definition first_where {A : Type} (P : A → Prop) (x : A) (l : list A)
    : Prop :=
  ∃ pre post, l = pre ++ x :: post ∧ P x ∧ Forall (λ y, ¬ P y) pre.

(** A top-level enum named [join__Graph]. *)
Definition is_JoinGraph (def : DefinitionNode) : Prop :=
  ∃ values, def = EnumTypeDefinition "join__Graph" values.

Definition is_name_argument (arg : ArgumentNode) : Prop :=
  arg_name arg = "name".

(** The real name that one directive declares: it is a [join__graph]
    directive and its [name] argument (the first of that name) is a string
    literal. *)
Definition declared_name (directive : DirectiveNode) : option string :=
  if bool_decide (dir_name directive = "join__graph") then
    match nameArg directive with
    | Some {| arg_value := StringValue v |} => Some v
    | _ => None
    end
  else None.

(** The real names that the directives of one enum value declare, in the
    order of the directives. *)
Definition declared_names (value : EnumValueDefinitionNode) : list string :=
  omap declared_name (default [] (ev_directives value)).

(** All the declarations of a real name for the identifier [k], in document
    order. *)
Definition occurrences (k : string) (values : list EnumValueDefinitionNode)
    : list string :=
  mjoin (declared_names <$>
           List.filter (λ v, bool_decide (ev_name v = k)) values).

(** The values of the enum that the handler picked. *)
Definition joingraph_values (supergraphSdl : DocumentNode)
    : list EnumValueDefinitionNode :=
  match joingraphEnum supergraphSdl with
  | Some (EnumTypeDefinition _ (Some values)) => values
  | _ => []
  end.

(** The document has some top-level enum named [join__Graph] with a value
    named [k] that carries a [join__graph] directive with some [name]
    argument that is a string literal. *)
Definition declares (supergraphSdl : DocumentNode) (k : string) : Prop :=
  ∃ vs v ds d args arg s,
    EnumTypeDefinition "join__Graph" (Some vs) ∈ definitions supergraphSdl
    ∧ v ∈ vs ∧ ev_name v = k
    ∧ ev_directives v = Some ds ∧ d ∈ ds ∧ dir_name d = "join__graph"
    ∧ dir_arguments d = Some args ∧ arg ∈ args
    ∧ is_name_argument arg ∧ arg_value arg = StringValue s.

(** The same with the first such enum and, in the directive, the first
    argument called [name]. *)
Definition declares_first (supergraphSdl : DocumentNode) (k : string)
    : Prop :=
  ∃ vs v ds d args arg s,
    first_where is_JoinGraph (EnumTypeDefinition "join__Graph" (Some vs))
      (definitions supergraphSdl)
    ∧ v ∈ vs ∧ ev_name v = k
    ∧ ev_directives v = Some ds ∧ d ∈ ds ∧ dir_name d = "join__graph"
    ∧ dir_arguments d = Some args ∧ first_where is_name_argument arg args
    ∧ arg_value arg = StringValue s.

(** [a ?? b] where [a] is an optional string. *)
Definition nullish_coalesce (a : option string) (b : string) : string :=
  default b a.

(** Replacement of the first occurrence of [pat] in [s] by [r], with [r]
    taken literally. *)
Definition replace_literal (s pat r : string) : string :=
  match indexOf pat s with
  | None => s
  | Some pos =>
      substringTo pos s +:+ r
        +:+ substringFrom (pos + String.length pat) s
  end.

(** No dollar sign in [s]. *)
Definition dollar_free (s : string) : Prop := "$"%char ∉ chars s.

(** ** Fixtures and a concrete host *)

Definition join_graph (name : ValueNode) : DirectiveNode :=
  {| dir_name := "join__graph";
     dir_arguments := Some [ {| arg_name := "name"; arg_value := name |} ] |}.

(** enum join__Graph { A @join__graph(name: "svcA")
                        B @join__graph(name: "svcB") } *)
Definition fixture_definitions : list DefinitionNode :=
  [ EnumTypeDefinition "join__Graph"
      (Some [ {| ev_name := "A";
                 ev_directives := Some [ join_graph (StringValue "svcA") ] |};
              {| ev_name := "B";
                 ev_directives := Some [ join_graph (StringValue "svcB") ] |}
            ]) ].

Definition fixture_doc : DocumentNode :=
  {| doc_ref := Allocated 0; doc_kind := Some "Document";
     definitions := fixture_definitions |}.

(** type Query; enum join__Graph { A @join__graph(name: 1)
      @join__graph(name: "first") @other @join__graph(name: "second") B } *)
Definition repeated_doc : DocumentNode :=
  {| doc_ref := Allocated 0; doc_kind := Some "Document";
     definitions :=
       [ OtherDefinition ObjectTypeDefinition (Some "Query");
         EnumTypeDefinition "join__Graph"
           (Some [ {| ev_name := "A";
                      ev_directives :=
                        Some [ join_graph (IntValue "1");
                               join_graph (StringValue "first");
                               {| dir_name := "other";
                                  dir_arguments := None |};
                               join_graph (StringValue "second") ] |};
                   {| ev_name := "B"; ev_directives := None |} ]) ] |}.

(** enum join__Graph { A }
    enum join__Graph { B @join__graph(name: "svcB") } *)
Definition two_enums_doc : DocumentNode :=
  {| doc_ref := Allocated 0; doc_kind := Some "Document";
     definitions :=
       [ EnumTypeDefinition "join__Graph"
           (Some [ {| ev_name := "A"; ev_directives := Some [] |} ]);
         EnumTypeDefinition "join__Graph"
           (Some [ {| ev_name := "B";
                      ev_directives :=
                        Some [ join_graph (StringValue "svcB") ] |} ]) ] |}.

(** The double quote, which a string literal cannot hold. *)
Definition DQ : string := String (ascii_of_nat 34) EmptyString.

Definition fixture_sdl : string :=
  "enum join__Graph { A @join__graph(name: " +:+ DQ +:+ "svcA" +:+ DQ
    +:+ ") B @join__graph(name: " +:+ DQ +:+ "svcB" +:+ DQ +:+ ") }".

(** What a YAML file made of one sequence that holds itself is read as:
    an array, on which [JSON.stringify] throws. *)
Definition cyclic_array : JSValue :=
  JSOther (Foreign 1) None
    (JSONThrows "Converting circular structure to JSON").

(** The object that the JSON text [{ kind: Document }], with its quotes, is
    read as: of kind [Document], without definitions. *)
Definition bare_document : JSValue :=
  JSOther (Foreign 2) (Some "Document")
    (JSONText (Some ("{" +:+ LF +:+ "  " +:+ DQ +:+ "kind" +:+ DQ +:+ ": "
                       +:+ DQ +:+ "Document" +:+ DQ +:+ LF +:+ "}"))).

Definition demo_types : RequestTypes :=
  {| Env := unit; Root := unit; ReqContext := string; ReqInfo := unit;
     Variables := unit |}.

(** A host in which the request context is the text that takes the place
    of the placeholder [{context.tenant}], put there with
    [String.prototype.replace] as the interpolation package does; the file
    [supergraph.graphql] and the address [https://registry/supergraph] hold
    the fixture, the file [cyclic.yaml] the cyclic array, the address
    [https://registry/bare] the object without definitions; the address
    [https://reset/supergraph] rejects with [undefined] and nothing else can
    be retrieved. *)
Definition demo_interpolate (template : string)
    (resolverData : @ResolverData demo_types) : string :=
  match @rd_context demo_types resolverData with
  | Some tenant => replace template "{context.tenant}" tenant
  | None => template
  end.

Definition demo_host : @Host demo_types :=
  {| process_env := tt : @Env demo_types;
     stringInterpolator_parse := demo_interpolate;
     getInterpolatedStringFactory := demo_interpolate;
     getInterpolatedHeadersFactory := λ template resolverData,
       (λ v, demo_interpolate v resolverData) <$> default ∅ template;
     isUrl := λ s, startsWith "http://" s || startsWith "https://" s;
     readUrl_outcome := λ location _ _,
       if bool_decide (location = "https://registry/supergraph")
       then inr (JSString fixture_sdl)
       else if bool_decide (location = "https://registry/bare")
       then inr bare_document
       else if bool_decide (location = "https://reset/supergraph")
       then inl (Thrown JSUndefined)
       else inl (Error "getaddrinfo ENOTFOUND");
     readFile_outcome := λ location _ _,
       if bool_decide (location = "supergraph.graphql")
       then inr (JSString fixture_sdl)
       else if bool_decide (location = "cyclic.yaml")
       then inr cyclic_array
       else inl (Error "ENOENT: no such file or directory");
     parse_text := λ text,
       if bool_decide (text = fixture_sdl) then inr fixture_definitions
       else inl (Error "Syntax Error: Unexpected <EOF>.");
     JSON_text := λ v,
       match v with
       | JSNumber n => pretty n
       | JSString s => DQ +:+ s +:+ DQ
       | _ => "{ ... }"     (* abridged *)
       end |}.

(** An assembler that accepts every document and returns it as the
    schema. *)
Definition demo_assembler : @Assembler demo_types :=
  {| Schema := DocumentNode;
     getStitchedSchemaFromSupergraphSdl := λ input,
       inr (@si_supergraphSdl demo_types input) |}.

Definition empty_world : World :=
  {| store := ∅; next_ref := 0; trace := [] |}.

Definition demo_config (source : string) : SupergraphConfig :=
  {| cfg_source := source; cfg_schemaHeaders := None;
     cfg_operationHeaders := Some {[ "B" := "3"; "C" := "4" ]};
     cfg_batch := None;
     cfg_subgraphs :=
       Some [ {| sc_name := "svcA";
                 sc_endpoint := Some "https://svc/{context.tenant}/graphql";
                 sc_operationHeaders := Some {[ "A" := "1"; "B" := "2" ]} |};
              {| sc_name := "svcB"; sc_endpoint := Some "";
                 sc_operationHeaders := None |} ] |}.

Definition file_handler : SupergraphHandler :=
  new_SupergraphHandler (demo_config "supergraph.graphql") "/srv/mesh".

Definition url_handler : SupergraphHandler :=
  new_SupergraphHandler (demo_config "https://registry/supergraph") "/srv/mesh".

Definition demo_request : @ExecutorRequest demo_types :=
  @mkExecutorRequest demo_types None (Some "acme") None None.

(** The resolver data that the [headers] callback builds from a request. *)
Definition resolverData_of `{Host} (executorRequest : ExecutorRequest)
    : ResolverData :=
  {| rd_root := er_rootValue executorRequest;
     rd_env := process_env;
     rd_context := er_context executorRequest;
     rd_info := er_info executorRequest;
     rd_args := er_variables executorRequest |}.

(** The resolver data that the [fetch] callback builds. *)
Definition fetch_resolverData `{Host} (context : option ReqContext)
    (info : option ReqInfo) : ResolverData :=
  {| rd_root := None; rd_env := process_env; rd_context := context;
     rd_info := info; rd_args := None |}.

(** The two subgraphs of the fixture as the assembler announces them. *)
Definition subgraph_A : SubschemaConfig :=
  {| ssc_name := "A"; ssc_endpoint := "https://declared-a/graphql" |}.

Definition subgraph_B : SubschemaConfig :=
  {| ssc_name := "B"; ssc_endpoint := "https://declared-b/graphql" |}.

Definition demo_executor (subgraphConfig : SubschemaConfig)
    : @HTTPExecutorOptions demo_types :=
  @onSubschemaConfig demo_types demo_host (demo_config "supergraph.graphql")
    (subgraphNameIdMap fixture_doc) subgraphConfig.

(** The label with which the two errors of [handleSupergraphResponse]
    start. *)
Definition invalid_result_label : string :=
  "Supergraph source must be a valid GraphQL SDL string or a parsed DocumentNode".

(** A payload that is neither a string nor an object of kind [Document]. *)
Definition invalid_payload (payload : JSValue) : Prop :=
  (∀ s, payload ≠ JSString s)
  ∧ (∀ o, payload = JSObject o → doc_kind o ≠ Some "Document")
  ∧ (∀ ref json, payload ≠ JSOther ref (Some "Document") json).

(** The headers that the loader sends along with a retrieval. *)
Definition schemaHeaders_of `{Host} (this : SupergraphHandler) : Headers :=
  getInterpolatedHeadersFactory (cfg_schemaHeaders (config this)) env_only.

(** The words with which the error for a failed retrieval starts. *)
Definition load_failure_label : string := "Failed to load supergraph SDL from ".

(** The configuration that stands in when no subgraph configuration is
    found: [{ name: subgraphName }]. *)
Definition name_only (subgraphName : string) : SubgraphConfiguration :=
  {| sc_name := subgraphName; sc_endpoint := None;
     sc_operationHeaders := None |}.

(** The world [w] with another content of the store. *)
Definition with_store (stored : gmap string JSValue) (w : World) : World :=
  {| store := stored; next_ref := next_ref w; trace := trace w |}.

(** The document that [parse] builds from [defs] in the world [w]. *)
Definition parsed_at (n : nat) (defs : list DefinitionNode) : DocumentNode :=
  {| doc_ref := Allocated n; doc_kind := Some "Document";
     definitions := defs |}.

(** A handler whose source is an address that cannot be reached. *)
Definition unreachable_handler : SupergraphHandler :=
  new_SupergraphHandler (demo_config "https://down/supergraph") "/srv/mesh".

(** A handler whose source rejects with [undefined], and one whose source
    holds the object without definitions. *)
Definition reset_handler : SupergraphHandler :=
  new_SupergraphHandler (demo_config "https://reset/supergraph") "/srv/mesh".

Definition bare_handler : SupergraphHandler :=
  new_SupergraphHandler (demo_config "https://registry/bare") "/srv/mesh".

(** The fixture between other definitions, followed by a second enum of
    the reserved name. *)
Definition surrounded_doc : DocumentNode :=
  {| doc_ref := Foreign 7; doc_kind := Some "Document";
     definitions :=
       OtherDefinition SchemaDefinition None
         :: OtherDefinition ObjectTypeDefinition (Some "Query")
         :: fixture_definitions
         ++ [ EnumTypeDefinition "join__Graph"
                (Some [ {| ev_name := "C";
                           ev_directives :=
                             Some [ join_graph (StringValue "svcC") ] |} ]);
              OtherDefinition ScalarTypeDefinition (Some "join__FieldSet") ]
  |}.

(** A subgraph that the name map of the fixture does not know, and a
    configuration list with an entry named like it. *)
Definition subgraph_Z : SubschemaConfig :=
  {| ssc_name := "Z"; ssc_endpoint := "https://declared-z/graphql" |}.

Definition config_with_Z : SupergraphConfig :=
  {| cfg_source := "supergraph.graphql"; cfg_schemaHeaders := None;
     cfg_operationHeaders := Some {[ "authorization" := "Bearer t" ]};
     cfg_batch := Some false;
     cfg_subgraphs :=
       Some [ {| sc_name := "Z"; sc_endpoint := Some "https://z/graphql";
                 sc_operationHeaders := Some {[ "x-z" := "1" ]} |} ] |}.

(** The fixture with its two values in the other order. *)
Definition swapped_doc : DocumentNode :=
  {| doc_ref := Allocated 3; doc_kind := Some "Document";
     definitions :=
       [ EnumTypeDefinition "join__Graph"
           (Some [ {| ev_name := "B";
                      ev_directives :=
                        Some [ join_graph (StringValue "svcB") ] |};
                   {| ev_name := "A";
                      ev_directives :=
                        Some [ join_graph (StringValue "svcA") ] |} ]) ] |}.

(** The configuration of [svcA] in [demo_config]. *)
Definition svcA_configuration : SubgraphConfiguration :=
  {| sc_name := "svcA";
     sc_endpoint := Some "https://svc/{context.tenant}/graphql";
     sc_operationHeaders := Some {[ "A" := "1"; "B" := "2" ]} |}.

(** * Properties *)

(** ** Strings *)

Section StringFacts.
Implicit Types s pat pre post r : string.
#[local] Arguments String.append !_ _ / : simpl nomatch.

Lemma append_assoc s1 s2 s3 : (s1 +:+ s2) +:+ s3 = s1 +:+ s2 +:+ s3.
Proof. induction s1 as [|c s1 IH]; simpl; [done | by rewrite IH]. Qed.

Lemma append_empty_r s : s +:+ "" = s.
Proof. induction s as [|c s IH]; simpl; [done | by rewrite IH]. Qed.

Lemma length_append s1 s2 :
  String.length (s1 +:+ s2) = String.length s1 + String.length s2.
Proof. induction s1 as [|c s1 IH]; simpl; [done | by rewrite IH]. Qed.

Lemma append_inj_length s1 s2 t1 t2 :
  String.length s1 = String.length t1 →
  s1 +:+ s2 = t1 +:+ t2 → s1 = t1 ∧ s2 = t2.
Proof.
  revert t1. induction s1 as [|c s1 IH]; intros [|d t1] Hlen Heq;
    simpl in *; try done.
  injection Heq as -> Heq. destruct (IH t1) as [-> ->]; [lia | done | done].
Qed.

Lemma startsWith_spec pat s :
  startsWith pat s = true ↔ ∃ post, s = pat +:+ post.
Proof.
  revert s. induction pat as [|a pat IH]; intros s; simpl.
  - split; [by exists s | done].
  - destruct s as [|b s].
    + split; [done | by intros [post Hpost]].
    + case_decide as Hab.
      * subst b. rewrite IH. split; intros [post Hpost]; exists post.
        -- by rewrite Hpost.
        -- by injection Hpost.
      * split; [done | intros [post Hpost]; congruence].
Qed.

Lemma occurs_at_0 pat s : occurs_at pat s 0 ↔ startsWith pat s = true.
Proof.
  rewrite startsWith_spec. split.
  - intros (pre & post & -> & Hlen). destruct pre; [|done]. by exists post.
  - intros [post ->]. by exists "", post.
Qed.

Lemma occurs_at_S pat c s k :
  occurs_at pat (String c s) (S k) ↔ occurs_at pat s k.
Proof.
  split.
  - intros (pre & post & Heq & Hlen). destruct pre as [|d pre]; [done|].
    simpl in *. injection Heq as -> ->. exists pre, post. split; [done | lia].
  - intros (pre & post & -> & Hlen). exists (String c pre), post.
    simpl. by rewrite Hlen.
Qed.

(** [indexOf] finds an occurrence, and the first one. *)
Lemma indexOf_Some pat s n :
  indexOf pat s = Some n ↔
  occurs_at pat s n ∧ ∀ k, k < n → ¬ occurs_at pat s k.
Proof.
  revert n. induction s as [|c s IH]; intros n; simpl.
  - destruct (startsWith pat "") eqn:Hsw.
    + split.
      * intros [= <-]. split; [by apply occurs_at_0 | lia].
      * intros [Hocc Hfirst]. destruct n as [|n]; [done|].
        exfalso. apply (Hfirst 0); [lia | by apply occurs_at_0].
    + split; [done|]. intros [(pre & post & Heq & Hlen) _].
      destruct pre; simpl in *; [|done]. subst n.
      assert (startsWith pat "" = true) by (apply startsWith_spec; eauto).
      congruence.
  - destruct (startsWith pat (String c s)) eqn:Hsw.
    + split.
      * intros [= <-]. split; [by apply occurs_at_0 | lia].
      * intros [Hocc Hfirst]. destruct n as [|n]; [done|].
        exfalso. apply (Hfirst 0); [lia | by apply occurs_at_0].
    + destruct n as [|n].
      * split.
        -- destruct (indexOf pat s); done.
        -- intros [Hocc _]. apply occurs_at_0 in Hocc. congruence.
      * specialize (IH n). split.
        -- intros Hidx. destruct (indexOf pat s) as [m|] eqn:Hm; [|done].
           injection Hidx as ->. destruct IH as [[Hocc Hfirst] _]; [done|].
           split; [by apply occurs_at_S|].
           intros [|k] Hk Hk'.
           ++ apply occurs_at_0 in Hk'. congruence.
           ++ apply occurs_at_S in Hk'. apply (Hfirst k); [lia | done].
        -- intros [Hocc Hfirst]. destruct IH as [_ IH].
           rewrite IH; [done|].
           split; [by apply occurs_at_S in Hocc|].
           intros k Hk Hk'. apply (Hfirst (S k)); [lia|].
           by apply occurs_at_S.
Qed.

Lemma indexOf_None pat s :
  indexOf pat s = None ↔ ∀ k, ¬ occurs_at pat s k.
Proof.
  split.
  - intros Hnone k. induction (lt_wf k) as [k _ IH]. intros Hocc.
    destruct (indexOf_Some pat s k) as [_ Hthen].
    rewrite Hthen in Hnone; [done|]. split; [done|]. intros j Hj. by apply IH.
  - intros Hno. destruct (indexOf pat s) as [n|] eqn:Hn; [|done].
    apply indexOf_Some in Hn as [Hocc _]. by destruct (Hno n).
Qed.

Lemma substringTo_append pre s :
  substringTo (String.length pre) (pre +:+ s) = pre.
Proof. induction pre as [|c pre IH]; simpl; [by destruct s | by rewrite IH]. Qed.

Lemma substringFrom_append pre s :
  substringFrom (String.length pre) (pre +:+ s) = s.
Proof. induction pre as [|c pre IH]; simpl; done. Qed.

Lemma substringFrom_add n m s :
  substringFrom (n + m) s = substringFrom m (substringFrom n s).
Proof.
  revert s. induction n as [|n IH]; intros s; simpl; [done|].
  destruct s; [by destruct m | apply IH].
Qed.

(** The three parts that [replace] cuts a string into. *)
Lemma replace_parts pre pat post :
  substringTo (String.length pre) (pre +:+ pat +:+ post) = pre
  ∧ substringFrom (String.length pre + String.length pat)
      (pre +:+ pat +:+ post) = post.
Proof.
  split; [apply substringTo_append|].
  by rewrite substringFrom_add, !substringFrom_append.
Qed.

Lemma GetSubstitution_dollar_free matched preceding following r :
  dollar_free r → GetSubstitution matched preceding following r = r.
Proof.
  unfold dollar_free. induction r as [|c r IH]; simpl; [done|].
  intros Hfree. case_decide as Hc.
  - exfalso. apply Hfree. subst c. by left.
  - rewrite IH; [done|]. intros Hin. apply Hfree. by right.
Qed.

(** [replace] at the first occurrence of the pattern. *)
Lemma replace_first_occurrence pre pat post r :
  (∀ k, k < String.length pre → ¬ occurs_at pat (pre +:+ pat +:+ post) k) →
  replace (pre +:+ pat +:+ post) pat r
  = pre +:+ GetSubstitution pat pre post r +:+ post.
Proof.
  intros Hfirst. unfold replace.
  assert (indexOf pat (pre +:+ pat +:+ post) = Some (String.length pre))
    as ->.
  { apply indexOf_Some. split; [by exists pre, post | done]. }
  by destruct (replace_parts pre pat post) as [-> ->].
Qed.

Lemma replace_absent s pat r :
  (∀ k, ¬ occurs_at pat s k) → replace s pat r = s.
Proof. intros Hno. unfold replace. by apply indexOf_None in Hno as ->. Qed.

Lemma replace_dollar_free s pat r :
  dollar_free r → replace s pat r = replace_literal s pat r.
Proof.
  intros Hfree. unfold replace, replace_literal.
  destruct (indexOf pat s); [|done].
  by rewrite GetSubstitution_dollar_free.
Qed.

Lemma contains_here a s t : contains a (s +:+ a +:+ t).
Proof. by exists s, t. Qed.

Lemma contains_start a t : contains a (a +:+ t).
Proof. by exists "", t. Qed.

Lemma contains_end a s : contains a (s +:+ a).
Proof. exists s, "". by rewrite append_empty_r. Qed.

Lemma contains_append_l a s t : contains a s → contains a (s +:+ t).
Proof.
  intros (pre & post & ->). exists pre, (post +:+ t).
  by rewrite !append_assoc.
Qed.

Lemma contains_append_r a s t : contains a t → contains a (s +:+ t).
Proof.
  intros (pre & post & ->). exists (s +:+ pre), post.
  by rewrite !append_assoc.
Qed.

Lemma startsWith_append pat s : startsWith pat (pat +:+ s) = true.
Proof. apply startsWith_spec. by exists s. Qed.

Example replace_first_only : replace "a-b-a" "a" "x" = "x-b-a".
Proof. reflexivity. Qed.

Example replace_absent_pattern : replace "a-b-a" "c" "x" = "a-b-a".
Proof. reflexivity. Qed.

Example replace_empty_pattern : replace "abc" "" "x" = "xabc".
Proof. reflexivity. Qed.

Example replace_dollar_patterns :
  replace "a-b-a" "-b" "[$$|$&|$`|$'|$1|$]" = "a[$|-b|a|-a|$1|$]-a".
Proof. reflexivity. Qed.
End StringFacts.

(** ** The name map *)

Section NameMapFacts.
Implicit Types m : gmap string string.

Lemma find_first_where {A} (p : A → bool) (x : A) (l : list A) :
  List.find p l = Some x ↔ first_where (λ y, p y = true) x l.
Proof.
  induction l as [|y l IH]; simpl.
  - split; [done|]. intros (pre & post & Heq & _). by destruct pre.
  - destruct (p y) eqn:Hy.
    + split.
      * intros [= ->]. exists [], l. by repeat split.
      * intros (pre & post & Heq & Hx & Hpre). destruct pre as [|z pre].
        -- by injection Heq as ->.
        -- injection Heq as -> _. apply Forall_cons in Hpre as [Hz _].
           by destruct Hz.
    + rewrite IH. split.
      * intros (pre & post & -> & Hx & Hpre). exists (y :: pre), post.
        repeat split; [done|]. apply Forall_cons. split; [congruence|done].
      * intros (pre & post & Heq & Hx & Hpre). destruct pre as [|z pre].
        -- injection Heq as ->. congruence.
        -- injection Heq as -> ->. apply Forall_cons in Hpre as [_ Hpre].
           by exists pre, post.
Qed.

Lemma first_where_iff {A} (P Q : A → Prop) (x : A) (l : list A) :
  (∀ y, P y ↔ Q y) → first_where P x l ↔ first_where Q x l.
Proof.
  intros HPQ. unfold first_where. split.
  - intros (pre & post & -> & Hx & Hpre). exists pre, post.
    repeat split; [by apply HPQ|]. eapply Forall_impl; [done|].
    intros y Hy ?. by apply Hy, HPQ.
  - intros (pre & post & -> & Hx & Hpre). exists pre, post.
    repeat split; [by apply HPQ|]. eapply Forall_impl; [done|].
    intros y Hy ?. by apply Hy, HPQ.
Qed.

Lemma is_joingraph_enum_spec def :
  is_joingraph_enum def = true ↔ is_JoinGraph def.
Proof.
  unfold is_JoinGraph. destruct def as [name values|kind name]; simpl.
  - rewrite bool_decide_eq_true. split.
    + intros ->. by exists values.
    + by intros [values' [= -> _]].
  - split; [done | by intros [? ?]].
Qed.

(** The enum that the handler picks is the first enum of that name. *)
Lemma joingraphEnum_first doc def :
  joingraphEnum doc = Some def ↔
  first_where is_JoinGraph def (definitions doc).
Proof.
  unfold joingraphEnum. rewrite find_first_where.
  apply first_where_iff. intros y. apply is_joingraph_enum_spec.
Qed.

Lemma nameArg_first directive arg :
  nameArg directive = Some arg ↔
  ∃ args, dir_arguments directive = Some args
          ∧ first_where is_name_argument arg args.
Proof.
  unfold nameArg. destruct (dir_arguments directive) as [args|].
  - rewrite find_first_where. split.
    + intros Hfirst. exists args. split; [done|].
      eapply first_where_iff; [|done]. intros y. simpl.
      by rewrite bool_decide_eq_true.
    + intros (args' & [= <-] & Hfirst).
      eapply first_where_iff; [|done]. intros y. simpl.
      by rewrite bool_decide_eq_true.
  - split; [done | by intros (? & ? & _)].
Qed.

Lemma declared_name_Some directive s :
  declared_name directive = Some s ↔
  dir_name directive = "join__graph"
  ∧ ∃ args arg, dir_arguments directive = Some args
                ∧ first_where is_name_argument arg args
                ∧ arg_value arg = StringValue s.
Proof.
  unfold declared_name. case_bool_decide as Hname.
  - destruct (nameArg directive) as [arg|] eqn:Harg.
    + apply nameArg_first in Harg as (args & Hargs & Hfirst). split.
      * intros Hs. split; [done|]. exists args, arg.
        repeat split; [done..|]. destruct arg as [n []]; naive_solver.
      * intros (_ & args' & arg' & Hargs' & Hfirst' & Hval).
        assert (nameArg directive = Some arg') as Hn'
          by (apply nameArg_first; eauto).
        assert (nameArg directive = Some arg) as Hn
          by (apply nameArg_first; eauto).
        rewrite Hn in Hn'. injection Hn' as <-.
        destruct arg as [n v]. simpl in Hval. by subst v.
    + split; [done|]. intros (_ & args & arg & Hargs & Hfirst & _).
      assert (nameArg directive = Some arg) by (apply nameArg_first; eauto).
      congruence.
  - split; [done | by intros [? _]].
Qed.

(** One directive either writes the name it declares or does nothing. *)
Lemma visit_directive_declared k m directive :
  visit_directive k m directive
  = match declared_name directive with
    | Some v => <[k := v]> m
    | None => m
    end.
Proof.
  unfold visit_directive, declared_name. case_bool_decide; [|done].
  by destruct (nameArg directive) as [[n []]|].
Qed.

Lemma fold_directives_lookup k ds m k' :
  fold_left (visit_directive k) ds m !! k'
  = if decide (k = k')
    then match last (omap declared_name ds) with
         | Some v => Some v
         | None => m !! k'
         end
    else m !! k'.
Proof.
  revert m. induction ds as [|d ds IH]; intros m; simpl.
  - by case_decide.
  - rewrite IH, visit_directive_declared.
    destruct (declared_name d) as [v|]; [|done].
    case_decide as Hk.
    + subst k'. rewrite last_cons, lookup_insert_eq. unfold omap.
      by destruct (last _).
    + by rewrite lookup_insert_ne.
Qed.

Lemma visit_value_lookup m value k :
  visit_value m value !! k
  = if decide (ev_name value = k)
    then match last (declared_names value) with
         | Some v => Some v
         | None => m !! k
         end
    else m !! k.
Proof.
  unfold visit_value, declared_names, forEach.
  destruct (ev_directives value) as [ds|]; simpl.
  - apply fold_directives_lookup.
  - by case_decide.
Qed.

Lemma fold_values_lookup vs m k :
  fold_left visit_value vs m !! k
  = match last (occurrences k vs) with
    | Some v => Some v
    | None => m !! k
    end.
Proof.
  revert m. induction vs as [|value vs IH]; intros m; [done|].
  simpl fold_left. rewrite IH, visit_value_lookup.
  unfold occurrences. simpl List.filter.
  case_decide as Hk.
  - rewrite bool_decide_eq_true_2 by done.
    rewrite fmap_cons. simpl mjoin. rewrite last_app.
    by destruct (last (mjoin _)).
  - by rewrite bool_decide_eq_false_2 by done.
Qed.

(** The entry of an identifier is the last name declared for it. *)
Lemma subgraphNameIdMap_lookup doc k :
  subgraphNameIdMap doc !! k = last (occurrences k (joingraph_values doc)).
Proof.
  unfold subgraphNameIdMap, joingraph_values.
  destruct (joingraphEnum doc) as [[name [vs|]|kind name]|]; simpl;
    try apply lookup_empty.
  rewrite fold_values_lookup, lookup_empty.
  by destruct (last _).
Qed.

Lemma elem_of_occurrences s k vs :
  s ∈ occurrences k vs ↔
  ∃ v ds d, v ∈ vs ∧ ev_name v = k ∧ ev_directives v = Some ds
            ∧ d ∈ ds ∧ declared_name d = Some s.
Proof.
  unfold occurrences. rewrite list_elem_of_join. split.
  - intros (l & Hs & Hl). apply list_elem_of_fmap in Hl as (v & -> & Hv).
    apply list_elem_of_In, filter_In in Hv as [Hv Hk].
    apply list_elem_of_In in Hv. apply bool_decide_eq_true in Hk.
    unfold declared_names in Hs. apply list_elem_of_omap in Hs as (d&Hd&Hs).
    destruct (ev_directives v) as [ds|] eqn:Hds; simpl in Hd.
    + by exists v, ds, d.
    + by apply not_elem_of_nil in Hd.
  - intros (v & ds & d & Hv & Hk & Hds & Hd & Hs).
    exists (declared_names v). split.
    + unfold declared_names. rewrite Hds. apply list_elem_of_omap. eauto.
    + apply list_elem_of_fmap. exists v. split; [done|].
      apply list_elem_of_In, filter_In. split; [by apply list_elem_of_In|].
      by apply bool_decide_eq_true.
Qed.

Lemma joingraph_values_first doc vs :
  first_where is_JoinGraph (EnumTypeDefinition "join__Graph" (Some vs))
    (definitions doc) →
  joingraph_values doc = vs.
Proof.
  intros Hfirst. apply joingraphEnum_first in Hfirst.
  unfold joingraph_values. by rewrite Hfirst.
Qed.

Lemma joingraph_values_elem doc v :
  v ∈ joingraph_values doc →
  first_where is_JoinGraph
    (EnumTypeDefinition "join__Graph" (Some (joingraph_values doc)))
    (definitions doc).
Proof.
  unfold joingraph_values.
  destruct (joingraphEnum doc) as [[name [vs|]|kind name]|] eqn:Hfind;
    try (by intros ?%not_elem_of_nil).
  intros _. apply joingraphEnum_first in Hfind as Hfirst.
  destruct Hfirst as (pre & post & Heq & [values [= -> _]] & Hpre).
  by apply joingraphEnum_first.
Qed.

Lemma subgraphNameIdMap_dom doc k :
  k ∈ dom (subgraphNameIdMap doc) ↔ declares_first doc k.
Proof.
  rewrite elem_of_dom, subgraphNameIdMap_lookup. split.
  - intros [s Hs]. apply last_Some_elem_of in Hs.
    apply elem_of_occurrences in Hs as (v & ds & d & Hv & Hk & Hds & Hd & Hs).
    apply declared_name_Some in Hs as (Hname & args & arg & Hargs & Harg & Hval).
    exists (joingraph_values doc), v, ds, d, args, arg, s.
    repeat split; try done. by eapply joingraph_values_elem.
  - intros (vs & v & ds & d & args & arg & s & Hfirst & Hv & Hk & Hds & Hd
            & Hname & Hargs & Harg & Hval).
    apply joingraph_values_first in Hfirst as ->.
    apply last_is_Some. intros Hnil.
    assert (s ∈ occurrences k vs) as Hin.
    { apply elem_of_occurrences. exists v, ds, d. repeat split; try done.
      apply declared_name_Some. split; [done|]. by exists args, arg. }
    rewrite Hnil in Hin. by apply not_elem_of_nil in Hin.
Qed.

Lemma subgraphNameIdMap_no_enum doc :
  (∀ def, def ∈ definitions doc → ¬ is_JoinGraph def) →
  subgraphNameIdMap doc = ∅.
Proof.
  intros Hno. unfold subgraphNameIdMap.
  destruct (joingraphEnum doc) as [def|] eqn:Hfind; [|done].
  apply joingraphEnum_first in Hfind as (pre & post & Heq & Hdef & _).
  exfalso. apply (Hno def); [|done]. rewrite Heq.
  apply elem_of_app. right. by left.
Qed.
End NameMapFacts.

Section NameMapClaims.

Lemma occurrences_absent k vs :
  k ∉ ev_name <$> vs → occurrences k vs = [].
Proof.
  intros Hk. destruct (occurrences k vs) as [|s l] eqn:Hocc; [done|].
  assert (s ∈ occurrences k vs) as Hin by (rewrite Hocc; by left).
  apply elem_of_occurrences in Hin as (v & ds & d & Hv & Hname & _).
  destruct Hk. apply list_elem_of_fmap. by exists v.
Qed.

Lemma occurrences_unique vs v :
  NoDup (ev_name <$> vs) → v ∈ vs →
  occurrences (ev_name v) vs = declared_names v.
Proof.
  induction vs as [|v0 vs IH]; intros Hnodup Hv.
  - by apply not_elem_of_nil in Hv.
  - rewrite fmap_cons in Hnodup. apply NoDup_cons in Hnodup as [Hv0 Hnodup].
    unfold occurrences. simpl List.filter.
    apply elem_of_cons in Hv as [->|Hv].
    + rewrite bool_decide_eq_true_2 by done. rewrite fmap_cons. simpl mjoin.
      fold (occurrences (ev_name v0) vs).
      rewrite occurrences_absent by done. apply app_nil_r.
    + rewrite bool_decide_eq_false_2.
      * by apply IH.
      * intros Heq. apply Hv0. rewrite Heq. by apply list_elem_of_fmap_2.
Qed.

(** C1, as amended.  The entry of an identifier in the name map is the
    LAST real name that the directives of the enum values of that name
    declare, in document order: a [join__graph] directive whose [name]
    argument is not a string literal writes nothing, and every directive
    that declares a name overwrites what the earlier ones wrote.  For an
    enum whose values have distinct names, the entry of a value is the name
    declared by the last of its own directives that declares one. *)
Theorem C1_last_declaration_wins (supergraphSdl : DocumentNode) :
  (∀ k, subgraphNameIdMap supergraphSdl !! k
        = last (occurrences k (joingraph_values supergraphSdl)))
  ∧ (NoDup (ev_name <$> joingraph_values supergraphSdl) →
     ∀ value, value ∈ joingraph_values supergraphSdl →
       subgraphNameIdMap supergraphSdl !! ev_name value
       = last (declared_names value)).
Proof.
  split.
  - intros k. apply subgraphNameIdMap_lookup.
  - intros Hnodup value Hvalue.
    by rewrite subgraphNameIdMap_lookup, occurrences_unique.
Qed.

(** C4, as amended.  An identifier has an entry in the name map exactly
    when the FIRST top-level enum named [join__Graph] has a value of that
    name carrying a [join__graph] directive whose FIRST argument called
    [name] is a string literal.  Without such an enum the map is empty; an
    identifier none of whose values declares a name has no entry; the
    fixture yields the two expected entries and no other. *)
Theorem C4_name_map_entries (supergraphSdl : DocumentNode) :
  (∀ k, k ∈ dom (subgraphNameIdMap supergraphSdl)
        ↔ declares_first supergraphSdl k)
  ∧ ((∀ def, def ∈ definitions supergraphSdl → ¬ is_JoinGraph def) →
     subgraphNameIdMap supergraphSdl = ∅)
  ∧ (∀ k, (∀ value, value ∈ joingraph_values supergraphSdl →
                    ev_name value = k → declared_names value = []) →
          subgraphNameIdMap supergraphSdl !! k = None)
  ∧ subgraphNameIdMap fixture_doc = {[ "A" := "svcA"; "B" := "svcB" ]}.
Proof.
  split; [|split; [|split]].
  - intros k. apply subgraphNameIdMap_dom.
  - apply subgraphNameIdMap_no_enum.
  - intros k Hnone. rewrite subgraphNameIdMap_lookup. apply last_None.
    destruct (occurrences _ _) as [|s l] eqn:Hocc; [done|]. exfalso.
    assert (s ∈ occurrences k (joingraph_values supergraphSdl)) as Hin
      by (rewrite Hocc; by left).
    apply elem_of_occurrences in Hin as (v & ds & d & Hv & Hk & Hds & Hd & Hs).
    specialize (Hnone v Hv Hk). unfold declared_names in Hnone.
    rewrite Hds in Hnone. simpl in Hnone.
    assert (s ∈ omap declared_name ds) as Hin
      by (apply list_elem_of_omap; eauto).
    rewrite Hnone in Hin. by apply not_elem_of_nil in Hin.
  - by vm_compute.
Qed.
End NameMapClaims.

(** At [repeated_doc] the value [A] carries the directive three times, the
    first time with an integer: the entry is the name of the last
    occurrence, not of the first one with a string. *)
Lemma C1_first_match_refuted :
  subgraphNameIdMap repeated_doc !! "A" = Some "second"
  ∧ head (occurrences "A" (joingraph_values repeated_doc)) = Some "first"
  ∧ subgraphNameIdMap repeated_doc !! "A"
    ≠ head (occurrences "A" (joingraph_values repeated_doc)).
Proof. vm_compute. repeat split; congruence. Qed.

Lemma C1_witness :
  subgraphNameIdMap repeated_doc !! "A" = Some "second"
  ∧ subgraphNameIdMap repeated_doc !! "B" = None.
Proof.
  destruct (C1_last_declaration_wins repeated_doc) as [_ Hvalue].
  assert (NoDup (ev_name <$> joingraph_values repeated_doc)) as Hnodup.
  { vm_compute. apply NoDup_cons. split; [|apply NoDup_singleton].
    intros Hin%list_elem_of_singleton. discriminate. }
  split.
  - apply (Hvalue Hnodup
             {| ev_name := "A";
                ev_directives :=
                  Some [ join_graph (IntValue "1");
                         join_graph (StringValue "first");
                         {| dir_name := "other"; dir_arguments := None |};
                         join_graph (StringValue "second") ] |}).
    vm_compute. by left.
  - apply (Hvalue Hnodup {| ev_name := "B"; ev_directives := None |}).
    vm_compute. right. by left.
Defined.

(** At [two_enums_doc] the second enum named [join__Graph] declares [B];
    the handler reads the first one only. *)
Lemma C4_any_enum_refuted :
  declares two_enums_doc "B" ∧ "B" ∉ dom (subgraphNameIdMap two_enums_doc).
Proof.
  split.
  - exists [ {| ev_name := "B";
                ev_directives := Some [ join_graph (StringValue "svcB") ] |} ],
      {| ev_name := "B";
         ev_directives := Some [ join_graph (StringValue "svcB") ] |},
      [ join_graph (StringValue "svcB") ], (join_graph (StringValue "svcB")),
      [ {| arg_name := "name"; arg_value := StringValue "svcB" |} ],
      {| arg_name := "name"; arg_value := StringValue "svcB" |}, "svcB".
    repeat split; try done; simpl; set_solver.
  - rewrite elem_of_dom. vm_compute. by intros [? ?].
Qed.

Lemma C4_witness :
  subgraphNameIdMap
    {| doc_ref := Allocated 0; doc_kind := Some "Document";
       definitions := [ OtherDefinition ObjectTypeDefinition (Some "Query") ] |}
  = ∅
  ∧ subgraphNameIdMap repeated_doc !! "B" = None.
Proof.
  split.
  - apply C4_name_map_entries. intros def Hdef [values ->].
    apply list_elem_of_singleton in Hdef. discriminate.
  - apply C4_name_map_entries. vm_compute. intros value Hvalue Hname.
    apply elem_of_cons in Hvalue as [->|Hvalue]; [discriminate|].
    apply list_elem_of_singleton in Hvalue as ->. done.
Defined.

(** ** The executor options *)

Section ExecutorClaims.
Context `{Host}.

Lemma Object_assign_lookup (target source : Headers) k :
  Object_assign target source !! k
  = match source !! k with
    | Some v => Some v
    | None => target !! k
    end.
Proof.
  unfold Object_assign. rewrite lookup_union.
  destruct (source !! k), (target !! k); done.
Qed.

(** C2, as amended.  The endpoint bound into the executor is the endpoint of
    the subgraph configuration when that field is present and is not the
    empty string, and the endpoint declared by the assembler when the field
    is missing or empty; the template evaluator of the [fetch] callback is
    built from that same endpoint. *)
Theorem C2_effective_endpoint (config : SupergraphConfig)
    (nameMap : gmap string string) (subgraphConfig : SubschemaConfig) :
  let subgraphConfiguration :=
    subgraphConfiguration_of (default [] (cfg_subgraphs config)) nameMap
      (ssc_name subgraphConfig) in
  let executor := onSubschemaConfig config nameMap subgraphConfig in
  (∀ endpoint, sc_endpoint subgraphConfiguration = Some endpoint →
               endpoint ≠ "" → eo_endpoint executor = endpoint)
  ∧ (sc_endpoint subgraphConfiguration = None
     ∨ sc_endpoint subgraphConfiguration = Some "" →
     eo_endpoint executor = ssc_endpoint subgraphConfig)
  ∧ (∀ url context info,
       eo_fetch executor url context info
       = replace url (eo_endpoint executor)
           (getInterpolatedStringFactory (eo_endpoint executor)
              (fetch_resolverData context info))).
Proof.
  simpl. split; [|split].
  - intros endpoint -> Hne. by destruct endpoint.
  - by intros [-> | ->].
  - done.
Qed.

(** C3.  When the subgraph configuration and the handler configuration
    both have an operation-headers template, the headers of a request hold
    every key of either evaluated template and no other; a key of the
    handler-level result carries the handler-level value, every other key
    the subgraph-level value.  Subgraph-level A=1, B=2 and handler-level
    B=3, C=4 give A=1, B=3, C=4. *)
Theorem C3_header_merge (config : SupergraphConfig)
    (nameMap : gmap string string) (subgraphConfig : SubschemaConfig)
    (executorRequest : ExecutorRequest)
    (subgraphTemplate handlerTemplate : Headers) :
  sc_operationHeaders
    (subgraphConfiguration_of (default [] (cfg_subgraphs config)) nameMap
       (ssc_name subgraphConfig)) = Some subgraphTemplate →
  cfg_operationHeaders config = Some handlerTemplate →
  let fromSubgraph :=
    getInterpolatedHeadersFactory (Some subgraphTemplate)
      (resolverData_of executorRequest) in
  let fromHandler :=
    getInterpolatedHeadersFactory (Some handlerTemplate)
      (resolverData_of executorRequest) in
  let merged :=
    eo_headers (onSubschemaConfig config nameMap subgraphConfig)
      executorRequest in
  dom merged = dom fromSubgraph ∪ dom fromHandler
  ∧ (∀ k v, fromHandler !! k = Some v → merged !! k = Some v)
  ∧ (∀ k, fromHandler !! k = None → merged !! k = fromSubgraph !! k)
  ∧ (fromSubgraph = {[ "A" := "1"; "B" := "2" ]} →
     fromHandler = {[ "B" := "3"; "C" := "4" ]} →
     merged = {[ "A" := "1"; "B" := "3"; "C" := "4" ]}).
Proof.
  intros Hsub Hhandler fromSubgraph fromHandler merged.
  assert (merged = fromHandler ∪ (fromSubgraph ∪ ∅)) as ->.
  { unfold merged. simpl. unfold headers, operationHeadersFactory_of.
    by rewrite Hsub, Hhandler. }
  rewrite (right_id_L ∅ (∪)). split; [|split; [|split]].
  - rewrite dom_union_L. apply (comm_L (∪)).
  - intros k v Hk. by apply lookup_union_Some_l.
  - intros k Hk. by apply lookup_union_r.
  - intros -> ->. by vm_compute.
Qed.

(** The example of the specification: the suffix of the URL is kept. *)
Lemma fetch_keeps_suffix context info :
  getInterpolatedStringFactory "https://svc/graphql"
    (fetch_resolverData context info) = "https://svc-prod/graphql" →
  fetch "https://svc/graphql" "https://svc/graphql?op=X" context info
  = "https://svc-prod/graphql?op=X".
Proof.
  intros Hendpoint. unfold fetch. fold (fetch_resolverData context info).
  by rewrite Hendpoint.
Qed.

(** With no dollar sign in the evaluated endpoint the replacement is
    literal. *)
Lemma fetch_literal nonInterpolatedEndpoint url context info :
  dollar_free (getInterpolatedStringFactory nonInterpolatedEndpoint
                 (fetch_resolverData context info)) →
  fetch nonInterpolatedEndpoint url context info
  = replace_literal url nonInterpolatedEndpoint
      (getInterpolatedStringFactory nonInterpolatedEndpoint
         (fetch_resolverData context info)).
Proof. intros Hfree. unfold fetch. by apply replace_dollar_free. Qed.

(** C9.  When the static endpoint occurs in the URL, with [pre] before its
    first occurrence and [post] after it, the [fetch] callback rewrites that
    occurrence only: [pre] and [post], and with [post] every later
    occurrence of the static endpoint, are left as they are. *)
Theorem C9_only_first_occurrence (nonInterpolatedEndpoint pre post : string)
    (context : option ReqContext) (info : option ReqInfo) :
  (∀ k, k < String.length pre →
        ¬ occurs_at nonInterpolatedEndpoint
            (pre +:+ nonInterpolatedEndpoint +:+ post) k) →
  let endpoint :=
    getInterpolatedStringFactory nonInterpolatedEndpoint
      (fetch_resolverData context info) in
  fetch nonInterpolatedEndpoint (pre +:+ nonInterpolatedEndpoint +:+ post)
    context info
  = pre +:+ GetSubstitution nonInterpolatedEndpoint pre post endpoint
        +:+ post
  ∧ (dollar_free endpoint →
     fetch nonInterpolatedEndpoint (pre +:+ nonInterpolatedEndpoint +:+ post)
       context info
     = pre +:+ endpoint +:+ post).
Proof.
  intros Hfirst endpoint.
  assert (fetch nonInterpolatedEndpoint
            (pre +:+ nonInterpolatedEndpoint +:+ post) context info
          = pre +:+ GetSubstitution nonInterpolatedEndpoint pre post endpoint
              +:+ post) as Hfetch.
  { unfold fetch. by apply replace_first_occurrence. }
  split; [done|]. intros Hfree.
  by rewrite Hfetch, GetSubstitution_dollar_free.
Qed.
End ExecutorClaims.

(** The configuration of [svcB] has the empty string as endpoint: the
    field is present, and the executor gets the declared endpoint. *)
Lemma C2_nullish_refuted :
  sc_endpoint
    (subgraphConfiguration_of
       (default [] (cfg_subgraphs (demo_config "supergraph.graphql")))
       (subgraphNameIdMap fixture_doc) (ssc_name subgraph_B)) = Some ""
  ∧ eo_endpoint (demo_executor subgraph_B) = "https://declared-b/graphql"
  ∧ eo_endpoint (demo_executor subgraph_B)
    ≠ nullish_coalesce
        (sc_endpoint
           (subgraphConfiguration_of
              (default [] (cfg_subgraphs (demo_config "supergraph.graphql")))
              (subgraphNameIdMap fixture_doc) (ssc_name subgraph_B)))
        (ssc_endpoint subgraph_B).
Proof. vm_compute. repeat split; congruence. Qed.

Lemma C2_witness :
  eo_endpoint (demo_executor subgraph_A)
  = "https://svc/{context.tenant}/graphql"
  ∧ eo_endpoint (demo_executor subgraph_B) = "https://declared-b/graphql".
Proof.
  split.
  - apply (@C2_effective_endpoint demo_types demo_host
             (demo_config "supergraph.graphql")
             (subgraphNameIdMap fixture_doc) subgraph_A).
    + by vm_compute.
    + discriminate.
  - apply (@C2_effective_endpoint demo_types demo_host
             (demo_config "supergraph.graphql")
             (subgraphNameIdMap fixture_doc) subgraph_B).
    right. by vm_compute.
Defined.

Lemma C3_witness :
  eo_headers (demo_executor subgraph_A) demo_request
  = {[ "A" := "1"; "B" := "3"; "C" := "4" ]}.
Proof.
  apply (@C3_header_merge demo_types demo_host
           (demo_config "supergraph.graphql")
           (subgraphNameIdMap fixture_doc) subgraph_A demo_request
           {[ "A" := "1"; "B" := "2" ]} {[ "B" := "3"; "C" := "4" ]});
    by vm_compute.
Defined.

(** C5 at an evaluated endpoint that holds two dollar signs in a row,
    whatever the host and the request that evaluate the template to it:
    [a$$b] reaches the URL as [a$b], where the literal replacement of the
    static endpoint by the evaluated one gives [a$$b]. *)
Theorem C5_dollar_pattern_rewritten `{Host} (context : option ReqContext)
    (info : option ReqInfo) :
  getInterpolatedStringFactory "https://svc/{context.tenant}/graphql"
    (fetch_resolverData context info) = "https://svc/a$$b/graphql" →
  fetch "https://svc/{context.tenant}/graphql"
    "https://svc/{context.tenant}/graphql?op=X" context info
  = "https://svc/a$b/graphql?op=X"
  ∧ replace_literal "https://svc/{context.tenant}/graphql?op=X"
      "https://svc/{context.tenant}/graphql"
      (getInterpolatedStringFactory "https://svc/{context.tenant}/graphql"
         (fetch_resolverData context info))
    = "https://svc/a$$b/graphql?op=X".
Proof.
  intros Hendpoint. unfold fetch. fold (fetch_resolverData context info).
  rewrite Hendpoint. by vm_compute.
Qed.

(** With the interpolation of the demo host, which substitutes as the
    package does, the tenant [a$$$$b] gives that evaluated endpoint. *)
Lemma C5_witness :
  @fetch demo_types demo_host "https://svc/{context.tenant}/graphql"
    "https://svc/{context.tenant}/graphql?op=X" (Some "a$$$$b") None
  = "https://svc/a$b/graphql?op=X".
Proof.
  apply (@C5_dollar_pattern_rewritten demo_types demo_host (Some "a$$$$b")
           None).
  by vm_compute.
Defined.

Lemma C9_witness :
  @fetch demo_types demo_host "https://{context.tenant}/graphql"
    ("" +:+ "https://{context.tenant}/graphql"
        +:+ "?next=https://{context.tenant}/graphql")
    (Some "svc-prod") None
  = "" +:+ "https://svc-prod/graphql"
       +:+ "?next=https://{context.tenant}/graphql".
Proof.
  apply (@C9_only_first_occurrence demo_types demo_host
           "https://{context.tenant}/graphql" ""
           "?next=https://{context.tenant}/graphql" (Some "svc-prod") None).
  - simpl. lia.
  - apply (bool_decide_unpack _). by vm_compute.
Defined.

(** ** The loader *)

Section LoaderClaims.
Context `{Host}.

Lemma count_snoc p t e :
  count p (t ++ [e]) = count p t + (if p e then 1 else 0).
Proof.
  unfold count. rewrite List.filter_app, length_app. simpl.
  by destruct (p e).
Qed.

(** The two ways through [handleSupergraphResponse]. *)
Lemma handleSupergraphResponse_string sdl interpolatedSource w :
  handleSupergraphResponse (JSString sdl) interpolatedSource w
  = match parse_text sdl with
    | inr defs =>
        (inr (JSObject {| doc_ref := Allocated (next_ref w);
                          doc_kind := Some "Document";
                          definitions := defs |}),
         {| store := store w; next_ref := S (next_ref w);
            trace := trace w |})
    | inl thrown =>
        (inl match get_message thrown with
             | inl typeError => typeError
             | inr message =>
                 Error (invalid_result_prefix interpolatedSource
                          +:+ sdl +:+ LF +:+ " Got error: "
                          +:+ template_string message)
             end, w)
    end.
Proof.
  simpl. unfold try_catch, parse. destruct (parse_text sdl) as [thrown|defs];
    [|done].
  unfold mbind, M_bind, lift, throw. by destruct (get_message thrown).
Qed.

Lemma handleSupergraphResponse_other payload interpolatedSource w :
  (∀ s, payload ≠ JSString s) →
  handleSupergraphResponse payload interpolatedSource w
  = match get_kind_opt payload with
    | inl thrown => (inl thrown, w)
    | inr kind =>
        if bool_decide (kind = Some "Document")
        then (inr payload, w)
        else match JSON_stringify payload with
             | inl thrown => (inl thrown, w)
             | inr rendering =>
                 (inl (Error (invalid_result_prefix interpolatedSource
                                +:+ template_string rendering)), w)
             end
    end.
Proof.
  intros Hstring.
  destruct payload as [| | | | |sdl|o|ref kind json];
    try (by destruct (Hstring sdl));
    cbn [handleSupergraphResponse get_kind_opt get_kind];
    unfold mbind, M_bind, lift, throw; cbn beta iota;
    repeat case_bool_decide; try done;
    by destruct (JSON_stringify _).
Qed.

(** [parse] and [handleSupergraphResponse] touch neither the store nor
    the collaborators. *)
Lemma parse_frame text w :
  store (parse text w).2 = store w ∧ trace (parse text w).2 = trace w.
Proof. unfold parse. by destruct (parse_text text). Qed.

Lemma handleSupergraphResponse_frame payload interpolatedSource w :
  store (handleSupergraphResponse payload interpolatedSource w).2 = store w
  ∧ trace (handleSupergraphResponse payload interpolatedSource w).2 = trace w.
Proof.
  assert ((∃ sdl, payload = JSString sdl) ∨ ∀ s, payload ≠ JSString s)
    as [[sdl ->]|Hother] by (destruct payload; eauto).
  - rewrite handleSupergraphResponse_string.
    destruct (parse_text sdl); [by destruct (get_message _) | done].
  - rewrite handleSupergraphResponse_other by done.
    destruct (get_kind_opt payload) as [thrown|kind]; [done|].
    case_bool_decide; [done|]. by destruct (JSON_stringify payload).
Qed.

Lemma invalid_payload_kind payload :
  invalid_payload payload →
  (∀ s, payload ≠ JSString s)
  ∧ get_kind_opt payload ≠ inr (Some "Document").
Proof.
  intros (Hstring & Hobject & Hother). split; [done|].
  destruct payload as [| | | | |sdl|o|ref kind json]; simpl; try done.
  - intros [= Hkind]. by apply (Hobject o).
  - intros [= ->]. by apply (Hother ref json).
Qed.

(** The error for a payload that is not a string, when the payload can be
    rendered. *)
Lemma handleSupergraphResponse_invalid payload rendering interpolatedSource w :
  invalid_payload payload →
  JSON_stringify payload = inr rendering →
  handleSupergraphResponse payload interpolatedSource w
  = (inl (Error (invalid_result_prefix interpolatedSource
                   +:+ template_string rendering)), w).
Proof.
  intros [Hstring Hkind]%invalid_payload_kind Hrendering.
  rewrite handleSupergraphResponse_other by done.
  destruct (get_kind_opt payload) as [thrown|kind'] eqn:Hkind'.
  - by destruct payload.
  - rewrite bool_decide_eq_false_2, Hrendering; [done|]. by intros ->.
Qed.

(** What is thrown when the payload cannot be rendered. *)
Lemma handleSupergraphResponse_unrenderable payload thrown interpolatedSource
    w :
  invalid_payload payload →
  JSON_stringify payload = inl thrown →
  handleSupergraphResponse payload interpolatedSource w = (inl thrown, w).
Proof.
  intros [Hstring Hkind]%invalid_payload_kind Hthrown.
  rewrite handleSupergraphResponse_other by done.
  destruct (get_kind_opt payload) as [thrown'|kind'] eqn:Hkind'.
  - by destruct payload.
  - rewrite bool_decide_eq_false_2, Hthrown; [done|]. by intros ->.
Qed.

(** The error for a string that does not parse. *)
Lemma handleSupergraphResponse_syntax_error sdl thrown message
    interpolatedSource w :
  parse_text sdl = inl thrown →
  get_message thrown = inr message →
  handleSupergraphResponse (JSString sdl) interpolatedSource w
  = (inl (Error (invalid_result_prefix interpolatedSource
                   +:+ sdl +:+ LF +:+ " Got error: "
                   +:+ template_string message)), w).
Proof.
  intros Hparse Hmessage. rewrite handleSupergraphResponse_string.
  by rewrite Hparse, Hmessage.
Qed.

Lemma invalid_result_prefix_contains interpolatedSource :
  contains interpolatedSource (invalid_result_prefix interpolatedSource).
Proof. apply contains_here. Qed.

Lemma invalid_result_prefix_label interpolatedSource rest :
  startsWith invalid_result_label
    (invalid_result_prefix interpolatedSource +:+ rest) = true.
Proof.
  apply startsWith_spec.
  exists (", but got an invalid result from " +:+ interpolatedSource
            +:+ " instead." +:+ LF +:+ " Got result: " +:+ rest).
  unfold invalid_result_prefix. by rewrite !append_assoc.
Qed.

(** The two branches of the loader. *)
Lemma getSupergraphSdl_url this w :
  isUrl (interpolatedSource_of this) = true →
  getSupergraphSdl this w
  = let w1 := log (ReadUrlCall (interpolatedSource_of this)
                     (schemaHeaders_of this) (baseDir this)) w in
    match readUrl_outcome (interpolatedSource_of this)
            (schemaHeaders_of this) (baseDir this) with
    | inl e => (inl (load_failure (interpolatedSource_of this) e), w1)
    | inr payload =>
        handleSupergraphResponse payload (interpolatedSource_of this) w1
    end.
Proof.
  intros Hurl. unfold getSupergraphSdl. rewrite Hurl.
  unfold mbind, M_bind, try_catch, readUrl, schemaHeaders_of. simpl.
  by destruct (readUrl_outcome _ _ _).
Qed.

Lemma getSupergraphSdl_file this w :
  isUrl (interpolatedSource_of this) = false →
  getSupergraphSdl this w
  = getWithSet (supergraphSdl this)
      (λ w0,
         let w1 := log (ReadFileCall (interpolatedSource_of this)
                          (schemaHeaders_of this) (baseDir this)) w0 in
         match readFile_outcome (interpolatedSource_of this)
                 (schemaHeaders_of this) (baseDir this) with
         | inl e => (inl (load_failure (interpolatedSource_of this) e), w1)
         | inr payload =>
             handleSupergraphResponse payload (interpolatedSource_of this) w1
         end) w.
Proof.
  intros Hurl. unfold getSupergraphSdl. rewrite Hurl.
  unfold getWithSet, mbind, M_bind, try_catch, readFile, schemaHeaders_of.
  simpl. destruct (store w !! supergraphSdl this); [done|].
  by destruct (readFile_outcome _ _ _).
Qed.

(** When [JSON.stringify] renders the payload and the parser's exception
    has a message, the errors of [handleSupergraphResponse] carry the label
    of the handler, the source they were given, and the rendering of the
    payload or the text and the message of the parser. *)
Lemma handleSupergraphResponse_labelled payload interpolatedSource w :
  (∀ rendering,
     invalid_payload payload → JSON_stringify payload = inr rendering →
     ∃ msg,
       handleSupergraphResponse payload interpolatedSource w
       = (inl (Error msg), w)
       ∧ startsWith invalid_result_label msg = true
       ∧ contains interpolatedSource msg
       ∧ contains (match rendering with
                   | Some text => text
                   | None => "undefined"
                   end) msg)
  ∧ (∀ sdl thrown message,
       payload = JSString sdl → parse_text sdl = inl thrown →
       get_message thrown = inr (Some message) →
       ∃ msg,
         handleSupergraphResponse payload interpolatedSource w
         = (inl (Error msg), w)
         ∧ startsWith invalid_result_label msg = true
         ∧ contains interpolatedSource msg
         ∧ contains sdl msg
         ∧ contains message msg).
Proof.
  split.
  - intros rendering Hinvalid Hrendering. eexists. split; [|split; [|split]].
    + by apply handleSupergraphResponse_invalid.
    + apply invalid_result_prefix_label.
    + apply contains_append_l, invalid_result_prefix_contains.
    + destruct rendering; apply contains_end.
  - intros sdl thrown message -> Hparse Hmessage. eexists.
    split; [|split; [|split; [|split]]].
    + by eapply handleSupergraphResponse_syntax_error.
    + apply invalid_result_prefix_label.
    + apply contains_append_l, invalid_result_prefix_contains.
    + apply contains_append_r, contains_start.
    + do 3 apply contains_append_r. apply contains_end.
Qed.

(** C6 at a payload that [JSON.stringify] cannot render.  An object
    whose [kind] is not [Document] and on which [JSON.stringify] throws, a
    cyclic structure for one, and a BigInt make
    [handleSupergraphResponse] throw the [TypeError] of [JSON.stringify]:
    the call is made while the message of the handler's own [Error] is
    being put together, so that [Error], with its label and the source, is
    never built.  A load from a network address that retrieves such a
    payload throws that [TypeError]. *)
Theorem C6_unrenderable_payload_unlabelled (this : SupergraphHandler)
    (w : World) (ref : ObjRef) (kind : option string) (reason : string) :
  kind ≠ Some "Document" →
  handleSupergraphResponse (JSOther ref kind (JSONThrows reason))
    (stringInterpolator_parse (cfg_source (config this))
       {| rd_root := None; rd_env := process_env; rd_context := None;
          rd_info := None; rd_args := None |}) w
  = (inl (TypeError reason), w)
  ∧ (∀ n, handleSupergraphResponse (JSBigInt n)
            (stringInterpolator_parse (cfg_source (config this))
               {| rd_root := None; rd_env := process_env;
                  rd_context := None; rd_info := None; rd_args := None |}) w
          = (inl (TypeError "Do not know how to serialize a BigInt"), w))
  ∧ (isUrl (interpolatedSource_of this) = true →
     readUrl_outcome (interpolatedSource_of this) (schemaHeaders_of this)
       (baseDir this) = inr (JSOther ref kind (JSONThrows reason)) →
     (getSupergraphSdl this w).1 = inl (TypeError reason)).
Proof.
  intros Hkind.
  assert (∀ w0, handleSupergraphResponse (JSOther ref kind (JSONThrows reason))
                  (interpolatedSource_of this) w0
                = (inl (TypeError reason), w0)) as Hthrown.
  { intros w0. apply handleSupergraphResponse_unrenderable; [|done].
    repeat split; try done. by intros ref' json' [= _ -> _]. }
  split; [apply Hthrown|]. split.
  - intros n. by apply handleSupergraphResponse_unrenderable.
  - intros Hurl Hpayload. rewrite getSupergraphSdl_url by done. simpl.
    by rewrite Hpayload, Hthrown.
Qed.

(** A load from a file that misses the cache and retrieves an invalid
    payload throws what [handleSupergraphResponse] throws. *)
Lemma getSupergraphSdl_file_invalid this payload rendering w :
  isUrl (interpolatedSource_of this) = false →
  store w !! supergraphSdl this = None →
  readFile_outcome (interpolatedSource_of this) (schemaHeaders_of this)
    (baseDir this) = inr payload →
  invalid_payload payload →
  JSON_stringify payload = inr rendering →
  (getSupergraphSdl this w).1
  = inl (Error (invalid_result_prefix (interpolatedSource_of this)
                  +:+ template_string rendering)).
Proof.
  intros Hurl Hmiss Hpayload Hinvalid Hrendering.
  rewrite getSupergraphSdl_file by done.
  unfold getWithSet. simpl. rewrite Hmiss, Hpayload.
  by rewrite (handleSupergraphResponse_invalid _ rendering).
Qed.

(** C10.  On [null] and on [undefined] the plain property access would
    throw a [TypeError]; the optional one yields [undefined], so that
    [handleSupergraphResponse] throws its own [Error], which names the
    interpolated source and holds the rendering of the payload, which
    [JSON.stringify] gives without throwing. *)
Theorem C10_null_and_undefined (payload : JSValue)
    (interpolatedSource : string) (w : World) :
  payload = JSNull ∨ payload = JSUndefined →
  (∃ reason, get_kind payload = inl (TypeError reason))
  ∧ get_kind_opt payload = inr None
  ∧ ∃ msg,
      handleSupergraphResponse payload interpolatedSource w
      = (inl (Error msg), w)
      ∧ startsWith invalid_result_label msg = true
      ∧ contains interpolatedSource msg
      ∧ ∃ rendering,
          JSON_stringify payload = inr rendering
          ∧ contains (template_string rendering) msg.
Proof.
  intros Hpayload. split; [|split].
  - destruct Hpayload as [-> | ->]; simpl; eauto.
  - by destruct Hpayload as [-> | ->].
  - assert (∃ rendering, JSON_stringify payload = inr rendering)
      as [rendering Hrendering]
      by (destruct Hpayload as [-> | ->]; simpl; eauto).
    eexists. split; [|split; [|split]].
    + apply (handleSupergraphResponse_invalid _ rendering); [|done].
      destruct Hpayload as [-> | ->]; by repeat split.
    + apply invalid_result_prefix_label.
    + apply contains_append_l, invalid_result_prefix_contains.
    + exists rendering. split; [done | apply contains_end].
Qed.

(** C8.  A load from a network address calls [readUrl] once, with the
    interpolated source, the evaluated schema headers and the base
    directory, and does nothing else to the world around it: the store is
    neither read nor written, whether the load succeeds or fails. *)
Theorem C8_url_load_fetches_once (this : SupergraphHandler) (w : World) :
  isUrl (interpolatedSource_of this) = true →
  let w' := (getSupergraphSdl this w).2 in
  trace w'
  = trace w ++ [ReadUrlCall (interpolatedSource_of this)
                  (schemaHeaders_of this) (baseDir this)]
  ∧ count is_ReadUrlCall (trace w') = S (count is_ReadUrlCall (trace w))
  ∧ count is_store_access (trace w') = count is_store_access (trace w)
  ∧ store w' = store w.
Proof.
  intros Hurl w'.
  assert (trace w'
          = trace w ++ [ReadUrlCall (interpolatedSource_of this)
                          (schemaHeaders_of this) (baseDir this)]
          ∧ store w' = store w) as [Htrace Hstore].
  { unfold w'. rewrite getSupergraphSdl_url by done. simpl.
    destruct (readUrl_outcome _ _ _) as [e|payload]; [done|].
    destruct (handleSupergraphResponse_frame payload
                (interpolatedSource_of this)
                (log (ReadUrlCall (interpolatedSource_of this)
                        (schemaHeaders_of this) (baseDir this)) w))
      as [-> ->]. done. }
  rewrite Htrace, !count_snoc. simpl. repeat split; [lia | lia | done].
Qed.

(** C7.  After a load from a file that returned a document, the store
    holds that document under the id [nonExecutableSchema], the load called
    [readFile] at most once, and the next load returns the same document,
    object identity included, without calling [readFile] and without
    changing the store. *)
Theorem C7_file_load_cached (config : SupergraphConfig) (baseDir : string)
    (w w1 : World) (doc : JSValue) :
  let this := new_SupergraphHandler config baseDir in
  isUrl (interpolatedSource_of this) = false →
  getSupergraphSdl this w = (inr doc, w1) →
  store w1 !! "nonExecutableSchema" = Some doc
  ∧ count is_ReadFileCall (trace w1) ≤ S (count is_ReadFileCall (trace w))
  ∧ ∃ w2, getSupergraphSdl this w1 = (inr doc, w2)
          ∧ count is_ReadFileCall (trace w2)
            = count is_ReadFileCall (trace w1)
          ∧ store w2 = store w1.
Proof.
  intros this Hurl Hload.
  assert (store w1 !! "nonExecutableSchema" = Some doc
          ∧ count is_ReadFileCall (trace w1)
            ≤ S (count is_ReadFileCall (trace w))) as [Hcached Hcount].
  { rewrite getSupergraphSdl_file in Hload by done.
    unfold getWithSet in Hload. simpl in Hload.
    destruct (store w !! "nonExecutableSchema") as [cached|] eqn:Hstore.
    - injection Hload as <- <-. simpl. rewrite count_snoc. simpl.
      split; [done | lia].
    - destruct (readFile_outcome _ _ _) as [e|payload]; [done|].
      match type of Hload with
      | context [handleSupergraphResponse ?p ?s ?w0] =>
          pose proof (handleSupergraphResponse_frame p s w0) as [_ Htrace];
          destruct (handleSupergraphResponse p s w0) as [[e|value] w0']
      end; [done|].
      injection Hload as <- <-. simpl in *.
      rewrite lookup_insert_eq, Htrace, !count_snoc. simpl.
      split; [done | lia]. }
  split; [done|]. split; [done|].
  exists (log (StoreGet "nonExecutableSchema") w1).
  rewrite getSupergraphSdl_file by done. unfold getWithSet. simpl.
  rewrite Hcached. simpl. rewrite count_snoc. simpl.
  repeat split. lia.
Qed.
End LoaderClaims.

Lemma C6_witness :
  @handleSupergraphResponse demo_types demo_host cyclic_array
    (@stringInterpolator_parse demo_types demo_host "cyclic.yaml"
       (@mkResolverData demo_types None tt None None None)) empty_world
  = (inl (TypeError "Converting circular structure to JSON"), empty_world).
Proof.
  apply (@C6_unrenderable_payload_unlabelled demo_types demo_host
           (new_SupergraphHandler (demo_config "cyclic.yaml") "/srv/mesh")
           empty_world (Foreign 1) None
           "Converting circular structure to JSON").
  discriminate.
Defined.

Lemma C7_witness :
  ∃ w2,
    @getSupergraphSdl demo_types demo_host file_handler
      (@getSupergraphSdl demo_types demo_host file_handler empty_world).2
    = (inr (JSObject fixture_doc), w2)
    ∧ count is_ReadFileCall (trace w2)
      = count is_ReadFileCall
          (trace
             (@getSupergraphSdl demo_types demo_host file_handler
                empty_world).2).
Proof.
  destruct (@C7_file_load_cached demo_types demo_host
              (demo_config "supergraph.graphql") "/srv/mesh" empty_world
              (@getSupergraphSdl demo_types demo_host file_handler
                 empty_world).2
              (JSObject fixture_doc))
    as (_ & _ & w2 & Hsecond & Hreads & _).
  - by vm_compute.
  - by vm_compute.
  - exists w2. by split.
Defined.

Lemma C8_witness :
  trace (@getSupergraphSdl demo_types demo_host url_handler empty_world).2
  = trace empty_world
      ++ [ReadUrlCall (@interpolatedSource_of demo_types demo_host url_handler)
            (@schemaHeaders_of demo_types demo_host url_handler)
            (baseDir url_handler)].
Proof.
  apply (@C8_url_load_fetches_once demo_types demo_host url_handler
           empty_world).
  by vm_compute.
Defined.

Lemma C10_witness :
  ∃ msg,
    @handleSupergraphResponse demo_types demo_host JSNull "empty.json"
      empty_world
    = (inl (Error msg), empty_world)
    ∧ contains "empty.json" msg.
Proof.
  destruct (@C10_null_and_undefined demo_types demo_host JSNull "empty.json"
              empty_world)
    as (_ & _ & msg & Hthrown & _ & Hsource & _); [by left|].
  exists msg. by split.
Defined.

(** * Further properties of the handler *)

(** ** Loading from a network address *)

Section UrlLoad.
Context `{Host}.

(** What [handleSupergraphResponse] returns is an object of kind
    [Document]. *)
Lemma handleSupergraphResponse_inr payload interpolatedSource w v w' :
  handleSupergraphResponse payload interpolatedSource w = (inr v, w') →
  (∃ o, v = JSObject o ∧ doc_kind o = Some "Document")
  ∨ (∃ ref json, v = JSOther ref (Some "Document") json).
Proof.
  assert ((∃ sdl, payload = JSString sdl) ∨ ∀ s, payload ≠ JSString s)
    as [[sdl ->]|Hother] by (destruct payload; eauto).
  - rewrite handleSupergraphResponse_string.
    destruct (parse_text sdl); [done|]. intros [= <- _]. left. by eexists.
  - rewrite handleSupergraphResponse_other by done.
    destruct (get_kind_opt payload) as [thrown|kind] eqn:Hkind; [done|].
    case_bool_decide as Hdocument.
    + intros [= <- _]. subst kind.
      destruct payload as [| | | | |sdl|o|ref kind json]; try done.
      * left. exists o. split; [done|]. simpl in Hkind. congruence.
      * right. exists ref, json. simpl in Hkind. congruence.
    + by destruct (JSON_stringify payload).
Qed.

(** What it throws: its own [Error], which starts with its label and
    names the source, or what reading the message of the parser's exception
    or [JSON.stringify] of the payload threw. *)
Lemma handleSupergraphResponse_inl payload interpolatedSource w e w' :
  handleSupergraphResponse payload interpolatedSource w = (inl e, w') →
  w' = w
  ∧ ((∃ msg, e = Error msg
             ∧ startsWith invalid_result_label msg = true
             ∧ contains interpolatedSource msg)
     ∨ (∃ sdl thrown, payload = JSString sdl ∧ parse_text sdl = inl thrown
                      ∧ get_message thrown = inl e)
     ∨ (invalid_payload payload ∧ JSON_stringify payload = inl e)).
Proof.
  assert (∀ rest,
            startsWith invalid_result_label
              (invalid_result_prefix interpolatedSource +:+ rest) = true
            ∧ contains interpolatedSource
                (invalid_result_prefix interpolatedSource +:+ rest))
    as Hmsg.
  { intros rest. split; [apply invalid_result_prefix_label|].
    apply contains_append_l, invalid_result_prefix_contains. }
  assert ((∃ sdl, payload = JSString sdl) ∨ ∀ s, payload ≠ JSString s)
    as [[sdl ->]|Hother] by (destruct payload; eauto).
  - rewrite handleSupergraphResponse_string.
    destruct (parse_text sdl) as [thrown|defs] eqn:Hparse; [|done].
    destruct (get_message thrown) as [typeError|message] eqn:Hmessage;
      intros [= <- <-]; (split; [done|]).
    + right. left. by exists sdl, thrown.
    + left. eexists. split; [done|]. apply Hmsg.
  - rewrite handleSupergraphResponse_other by done.
    destruct (get_kind_opt payload) as [thrown|kind] eqn:Hkind.
    { by destruct payload. }
    case_bool_decide as Hdocument; [done|].
    destruct (JSON_stringify payload) as [thrown|rendering] eqn:Hrendering;
      intros [= <- <-]; (split; [done|]).
    + right. right. split; [|done]. split; [done|]. split.
      * intros o -> Ho. simpl in Hkind. congruence.
      * intros ref json ->. simpl in Hkind. congruence.
    + left. eexists. split; [done|]. apply Hmsg.
Qed.

Lemma load_failure_with_message interpolatedSource rejection message :
  get_message rejection = inr message →
  ∃ msg, load_failure interpolatedSource rejection = Error msg
         ∧ startsWith load_failure_label msg = true
         ∧ contains interpolatedSource msg
         ∧ contains (template_string message) msg.
Proof.
  intros Hmessage. unfold load_failure. rewrite Hmessage.
  eexists. split; [done|]. split; [apply startsWith_append|]. split.
  - apply contains_here.
  - do 4 apply contains_append_r. apply contains_end.
Qed.

(** X1.  A load from a network address that fails throws an [Error]
    whose message contains the interpolated source, unless putting that
    message together threw first: reading [message] of the rejection of
    [readUrl] or of the parser's exception (they are [undefined] or
    [null]), or [JSON.stringify] of a payload that it cannot render.  Then
    that exception is what the load throws. *)
Theorem X1_url_failure_classified (this : SupergraphHandler) (w w' : World)
    (e : Exn) :
  isUrl (interpolatedSource_of this) = true →
  getSupergraphSdl this w = (inl e, w') →
  let retrieved :=
    readUrl_outcome (interpolatedSource_of this) (schemaHeaders_of this)
      (baseDir this) in
  (∃ msg, e = Error msg
          ∧ contains
              (stringInterpolator_parse (cfg_source (config this))
                 {| rd_root := None; rd_env := process_env;
                    rd_context := None; rd_info := None;
                    rd_args := None |}) msg)
  ∨ (∃ rejection, retrieved = inl rejection
                  ∧ get_message rejection = inl e)
  ∨ (∃ sdl thrown, retrieved = inr (JSString sdl)
                   ∧ parse_text sdl = inl thrown
                   ∧ get_message thrown = inl e)
  ∨ (∃ payload, retrieved = inr payload ∧ invalid_payload payload
                ∧ JSON_stringify payload = inl e).
Proof.
  intros Hurl. rewrite getSupergraphSdl_url by done. simpl.
  destruct (readUrl_outcome _ _ _) as [rejection|payload].
  - intros [= <- _].
    destruct (get_message rejection) as [typeError|message] eqn:Hmessage.
    + right. left. exists rejection. split; [done|].
      unfold load_failure. by rewrite Hmessage.
    + left.
      destruct (load_failure_with_message (interpolatedSource_of this)
                  rejection message) as (msg & -> & _ & Hsource & _); [done|].
      by exists msg.
  - intros (_ & Hcases)%handleSupergraphResponse_inl.
    destruct Hcases as [(msg & -> & _ & Hsource)
                       |[(sdl & thrown & -> & Hparse & Hmessage)
                        |[Hinvalid Hrendering]]].
    + left. by exists msg.
    + right. right. left. by exists sdl, thrown.
    + right. right. right. by exists payload.
Qed.

(** X2.  When [readUrl] rejects, nothing is parsed and the one call of
    [readUrl] is all that happened.  If the message of the rejection can be
    read, the load throws an [Error] that starts with "Failed to load
    supergraph SDL from " and contains the interpolated source and that
    message, [undefined] for a rejection that has none.  If the rejection is
    [undefined] or [null], the load throws the [TypeError] of reading its
    message. *)
Theorem X2_retrieval_failure_wrapped (this : SupergraphHandler) (w : World)
    (rejection : Exn) :
  isUrl (interpolatedSource_of this) = true →
  readUrl_outcome (interpolatedSource_of this) (schemaHeaders_of this)
    (baseDir this) = inl rejection →
  let after_call :=
    log (ReadUrlCall (interpolatedSource_of this) (schemaHeaders_of this)
           (baseDir this)) w in
  (∀ message, get_message rejection = inr message →
     ∃ msg,
       getSupergraphSdl this w = (inl (Error msg), after_call)
       ∧ startsWith "Failed to load supergraph SDL from " msg = true
       ∧ contains
           (stringInterpolator_parse (cfg_source (config this))
                 {| rd_root := None; rd_env := process_env;
                    rd_context := None; rd_info := None;
                    rd_args := None |}) msg
       ∧ contains (match message with
                   | Some text => text
                   | None => "undefined"
                   end) msg)
  ∧ (rejection = Thrown JSUndefined ∨ rejection = Thrown JSNull →
     ∃ reason,
       getSupergraphSdl this w = (inl (TypeError reason), after_call)).
Proof.
  intros Hurl Hrejected after_call.
  assert (getSupergraphSdl this w
          = (inl (load_failure (interpolatedSource_of this) rejection),
             after_call)) as ->.
  { rewrite getSupergraphSdl_url by done. simpl. by rewrite Hrejected. }
  split.
  - intros message Hmessage.
    destruct (load_failure_with_message (interpolatedSource_of this)
                rejection message)
      as (msg & -> & Hlabel & Hsource & Hcontains); [done|].
    exists msg. repeat split; try done; by destruct message.
  - intros [-> | ->]; by eexists.
Qed.

(** X3.  Whatever [handleSupergraphResponse] returns is an object whose
    [kind] is [Document], with a [definitions] array or without: no string,
    no [null] and no other object gets past it. *)
Theorem X3_returns_documents_only (payload : JSValue)
    (interpolatedSource : string) (w w' : World) (v : JSValue) :
  handleSupergraphResponse payload interpolatedSource w = (inr v, w') →
  (∃ o, v = JSObject o ∧ doc_kind o = Some "Document")
  ∨ (∃ ref json, v = JSOther ref (Some "Document") json).
Proof. apply handleSupergraphResponse_inr. Qed.

(** X4.  An object of kind [Document] is returned as it is, the same
    object, whatever its definitions: it is not parsed, not copied and not
    looked into, and neither the world nor the counter of objects changes.
    A load from a network address that retrieves such an object returns
    it. *)
Theorem X4_document_passes_through (this : SupergraphHandler)
    (o : DocumentNode) (w : World) :
  doc_kind o = Some "Document" →
  handleSupergraphResponse (JSObject o) (interpolatedSource_of this) w
  = (inr (JSObject o), w)
  ∧ (isUrl (interpolatedSource_of this) = true →
     readUrl_outcome (interpolatedSource_of this) (schemaHeaders_of this)
       (baseDir this) = inr (JSObject o) →
     getSupergraphSdl this w
     = (inr (JSObject o),
        log (ReadUrlCall (interpolatedSource_of this) (schemaHeaders_of this)
               (baseDir this)) w)).
Proof.
  intros Hkind.
  assert (∀ w0, handleSupergraphResponse (JSObject o)
                  (interpolatedSource_of this) w0 = (inr (JSObject o), w0))
    as Hsame.
  { intros w0. rewrite handleSupergraphResponse_other by done. simpl.
    by rewrite Hkind. }
  split; [apply Hsame|]. intros Hurl Hpayload.
  rewrite getSupergraphSdl_url by done. simpl. rewrite Hpayload. apply Hsame.
Qed.

(** X5.  When a network address yields a string that parses, every load
    parses it again: two loads in a row return documents with the same
    definitions and different identities. *)
Theorem X5_url_loads_parse_again (this : SupergraphHandler) (w : World)
    (sdl : string) (defs : list DefinitionNode) :
  isUrl (interpolatedSource_of this) = true →
  readUrl_outcome (interpolatedSource_of this) (schemaHeaders_of this)
    (baseDir this) = inr (JSString sdl) →
  parse_text sdl = inr defs →
  ∃ w1 w2,
    getSupergraphSdl this w
    = (inr (JSObject (parsed_at (next_ref w) defs)), w1)
    ∧ getSupergraphSdl this w1
      = (inr (JSObject (parsed_at (S (next_ref w)) defs)), w2)
    ∧ doc_ref (parsed_at (next_ref w) defs)
      ≠ doc_ref (parsed_at (S (next_ref w)) defs).
Proof.
  intros Hurl Hpayload Hparse.
  assert (∀ w0, getSupergraphSdl this w0
                = (inr (JSObject (parsed_at (next_ref w0) defs)),
                   {| store := store w0; next_ref := S (next_ref w0);
                      trace := trace w0
                        ++ [ReadUrlCall (interpolatedSource_of this)
                              (schemaHeaders_of this) (baseDir this)] |}))
    as Hload.
  { intros w0. rewrite getSupergraphSdl_url by done. simpl.
    rewrite Hpayload, handleSupergraphResponse_string. by rewrite Hparse. }
  eexists _, _. split; [apply Hload|]. split.
  - rewrite Hload. done.
  - simpl. intros [= Heq]. lia.
Qed.

(** X7.  A load from a network address does not look at the store: with
    any other content of the store the outcome is the same and that content
    is still there afterwards. *)
Theorem X7_url_load_ignores_store (this : SupergraphHandler) (w : World)
    (stored : gmap string JSValue) :
  isUrl (interpolatedSource_of this) = true →
  (getSupergraphSdl this (with_store stored w)).1
  = (getSupergraphSdl this w).1
  ∧ store (getSupergraphSdl this (with_store stored w)).2 = stored.
Proof.
  intros Hurl. rewrite !getSupergraphSdl_url by done. simpl.
  destruct (readUrl_outcome _ _ _) as [e0|payload]; [done|].
  assert ((∃ sdl, payload = JSString sdl) ∨ ∀ s, payload ≠ JSString s)
    as [[sdl ->]|Hother] by (destruct payload; eauto).
  - rewrite !handleSupergraphResponse_string.
    by destruct (parse_text sdl).
  - rewrite !handleSupergraphResponse_other by done.
    destruct (get_kind_opt payload) as [thrown|kind]; [done|].
    case_bool_decide; [done|]. by destruct (JSON_stringify payload).
Qed.

Section MeshSource.
Context `{!Assembler}.

(** X6.  With a source that is a network address, [getMeshSource] throws
    what the load throws when the load fails, and then does not call the
    assembler.  When the load returns an object with definitions, that
    object is of kind [Document] and [getMeshSource] is what the assembler
    makes of it, of the callback built on the name map of that very
    document, and of [batch], which is on unless the configuration says
    otherwise.  When the load returns anything else, that is an object of
    kind [Document] without definitions, and [getMeshSource] throws the
    [TypeError] of reading them, without calling the assembler. *)
Theorem X6_mesh_source_follows_load (this : SupergraphHandler) (w : World) :
  isUrl (interpolatedSource_of this) = true →
  match getSupergraphSdl this w with
  | (inl e, w') => getMeshSource this w = (inl e, w')
  | (inr (JSObject doc), w') =>
      doc_kind doc = Some "Document"
      ∧ getMeshSource this w
        = (getStitchedSchemaFromSupergraphSdl
             {| si_supergraphSdl := doc;
                si_onSubschemaConfig :=
                  onSubschemaConfig (config this) (subgraphNameIdMap doc);
                si_batch :=
                  match cfg_batch (config this) with
                  | Some batch => batch
                  | None => true
                  end |}, w')
  | (inr other, w') =>
      (∃ ref json, other = JSOther ref (Some "Document") json)
      ∧ ∃ reason, getMeshSource this w = (inl (TypeError reason), w')
  end.
Proof.
  intros Hurl. unfold getMeshSource, mbind, M_bind.
  destruct (getSupergraphSdl this w) as [[e|loaded] w'] eqn:Hload; [done|].
  rewrite getSupergraphSdl_url in Hload by done. simpl in Hload.
  destruct (readUrl_outcome _ _ _) as [e0|payload]; [done|].
  apply handleSupergraphResponse_inr in Hload
    as [(doc & -> & Hkind)|(ref & json & ->)].
  - split; [done|]. done.
  - split; [by eexists _, _|]. by eexists.
Qed.
End MeshSource.
End UrlLoad.

Lemma X1_witness :
  (∃ msg,
     (@getSupergraphSdl demo_types demo_host unreachable_handler
        empty_world).1 = inl (Error msg)
     ∧ contains
         (@interpolatedSource_of demo_types demo_host unreachable_handler)
         msg)
  ∨ (∃ rejection,
       @readUrl_outcome demo_types demo_host
         (@interpolatedSource_of demo_types demo_host unreachable_handler)
         (@schemaHeaders_of demo_types demo_host unreachable_handler)
         (baseDir unreachable_handler) = inl rejection).
Proof.
  destruct (@getSupergraphSdl demo_types demo_host unreachable_handler
              empty_world) as [[e|v] w'] eqn:Hload.
  - destruct (@X1_url_failure_classified demo_types demo_host
                unreachable_handler empty_world w' e)
      as [(msg & -> & Hsource)
         |[(rejection & Hrejected & _)
          |[(sdl & thrown & Hretrieved & _)
           |(payload & Hretrieved & _)]]];
      [by vm_compute | done | | | |].
    + left. by exists msg.
    + right. by exists rejection.
    + vm_compute in Hretrieved. discriminate.
    + vm_compute in Hretrieved. discriminate.
  - vm_compute in Hload. discriminate.
Defined.

Lemma X2_witness :
  (∃ msg,
     (@getSupergraphSdl demo_types demo_host unreachable_handler
        empty_world).1 = inl (Error msg)
     ∧ contains "getaddrinfo ENOTFOUND" msg)
  ∧ (∃ reason,
       (@getSupergraphSdl demo_types demo_host reset_handler empty_world).1
       = inl (TypeError reason)).
Proof.
  split.
  - destruct (@X2_retrieval_failure_wrapped demo_types demo_host
                unreachable_handler empty_world
                (Error "getaddrinfo ENOTFOUND"))
      as [Hwrapped _]; [by vm_compute..|].
    destruct (Hwrapped (Some "getaddrinfo ENOTFOUND"))
      as (msg & Hload & _ & _ & Hmessage); [done|].
    exists msg. by rewrite Hload.
  - destruct (@X2_retrieval_failure_wrapped demo_types demo_host
                reset_handler empty_world (Thrown JSUndefined))
      as [_ Hnullish]; [by vm_compute..|].
    destruct Hnullish as [reason Hload]; [by left|].
    exists reason. by rewrite Hload.
Defined.

Lemma X3_witness :
  ∃ o,
    (@handleSupergraphResponse demo_types demo_host (JSString fixture_sdl)
       "supergraph.graphql" empty_world).1 = inr (JSObject o)
    ∧ doc_kind o = Some "Document".
Proof.
  destruct (@X3_returns_documents_only demo_types demo_host
              (JSString fixture_sdl) "supergraph.graphql" empty_world
              {| store := ∅; next_ref := 1; trace := [] |}
              (JSObject fixture_doc))
    as [(o & Hdoc & Hkind)|(ref & json & Hother)];
    [by vm_compute | | discriminate].
  exists o. split; [|done]. by rewrite <- Hdoc.
Defined.

Lemma X4_witness :
  @handleSupergraphResponse demo_types demo_host (JSObject surrounded_doc)
    (@interpolatedSource_of demo_types demo_host url_handler) empty_world
  = (inr (JSObject surrounded_doc), empty_world).
Proof.
  by apply (@X4_document_passes_through demo_types demo_host url_handler
              surrounded_doc empty_world).
Defined.

Lemma X5_witness :
  ∃ w1 w2,
    @getSupergraphSdl demo_types demo_host url_handler empty_world
    = (inr (JSObject (parsed_at 0 fixture_definitions)), w1)
    ∧ @getSupergraphSdl demo_types demo_host url_handler w1
      = (inr (JSObject (parsed_at 1 fixture_definitions)), w2).
Proof.
  destruct (@X5_url_loads_parse_again demo_types demo_host url_handler
              empty_world fixture_sdl fixture_definitions)
    as (w1 & w2 & Hfirst & Hsecond & _); [by vm_compute..|].
  by exists w1, w2.
Defined.

Lemma X6_witness :
  (∃ w',
     @getMeshSource demo_types demo_host demo_assembler url_handler
       empty_world
     = (inr (parsed_at 0 fixture_definitions), w'))
  ∧ (∃ reason w',
       @getMeshSource demo_types demo_host demo_assembler bare_handler
         empty_world
       = (inl (TypeError reason), w')).
Proof.
  split.
  - pose proof (@X6_mesh_source_follows_load demo_types demo_host
                  demo_assembler url_handler empty_world) as Hmesh.
    destruct (@getSupergraphSdl demo_types demo_host url_handler empty_world)
      as [[e|loaded] w'] eqn:Hload.
    + vm_compute in Hload. discriminate.
    + vm_compute in Hload. injection Hload as <- _.
      destruct Hmesh as [_ ->]; [by vm_compute|]. by exists w'.
  - pose proof (@X6_mesh_source_follows_load demo_types demo_host
                  demo_assembler bare_handler empty_world) as Hmesh.
    destruct (@getSupergraphSdl demo_types demo_host bare_handler empty_world)
      as [[e|loaded] w'] eqn:Hload.
    + vm_compute in Hload. discriminate.
    + vm_compute in Hload. injection Hload as <- _.
      destruct Hmesh as [_ (reason & ->)]; [by vm_compute|].
      by exists reason, w'.
Defined.

Lemma X7_witness :
  (@getSupergraphSdl demo_types demo_host url_handler
     (with_store {[ "nonExecutableSchema" := JSNull ]} empty_world)).1
  = (@getSupergraphSdl demo_types demo_host url_handler empty_world).1.
Proof.
  by apply (@X7_url_load_ignores_store demo_types demo_host url_handler
              empty_world {[ "nonExecutableSchema" := JSNull ]}).
Defined.

(** ** Configuring one subgraph *)

Section SubgraphConfigurationFacts.
Context `{Host}.

Lemma find_None_all {A} (p : A → bool) (l : list A) :
  List.find p l = None ↔ ∀ x, x ∈ l → p x = false.
Proof.
  induction l as [|y l IH]; simpl.
  - split; [|done]. by intros _ x ?%not_elem_of_nil.
  - destruct (p y) eqn:Hy.
    + split; [done|]. intros Hall. rewrite Hall in Hy; [done | by left].
    + rewrite IH. split.
      * intros Hall x [->|Hx]%elem_of_cons; auto.
      * intros Hall x Hx. apply Hall. by right.
Qed.

(** The lookup of the configuration: by the real name, first match. *)
Lemma subgraphConfiguration_of_real configs (nameMap : gmap string string)
    id real c :
  nameMap !! id = Some real →
  first_where (λ c, sc_name c = real) c configs →
  subgraphConfiguration_of configs nameMap id = c.
Proof.
  intros Hreal Hfirst. unfold subgraphConfiguration_of. rewrite Hreal.
  assert (List.find (λ c, bool_decide (Some (sc_name c) = Some real)) configs
          = Some c) as ->; [|done].
  apply find_first_where. eapply first_where_iff; [|done].
  intros y. simpl. rewrite bool_decide_eq_true. naive_solver.
Qed.

Lemma subgraphConfiguration_of_unmatched configs
    (nameMap : gmap string string) id :
  (∀ c, c ∈ configs → Some (sc_name c) ≠ nameMap !! id) →
  subgraphConfiguration_of configs nameMap id = name_only id.
Proof.
  intros Hnone. unfold subgraphConfiguration_of.
  assert (List.find (λ c, bool_decide (Some (sc_name c) = nameMap !! id))
            configs = None) as ->; [|done].
  apply find_None_all. intros c Hc. apply bool_decide_eq_false. by apply Hnone.
Qed.

Lemma headers_cases (subgraphConfiguration : SubgraphConfiguration)
    (factory : option (ResolverData → Headers))
    (executorRequest : ExecutorRequest) :
  headers subgraphConfiguration factory executorRequest
  = match factory with
    | Some handlerLevel => handlerLevel (resolverData_of executorRequest)
    | None => ∅
    end
    ∪ match sc_operationHeaders subgraphConfiguration with
      | Some template =>
          getInterpolatedHeadersFactory (Some template)
            (resolverData_of executorRequest)
      | None => ∅
      end.
Proof.
  unfold headers, Object_assign. fold (resolverData_of executorRequest).
  destruct (sc_operationHeaders subgraphConfiguration), factory;
    by rewrite ?(right_id_L ∅ (∪)), ?(left_id_L ∅ (∪)).
Qed.

(** X8.  A subgraph whose identifier has no entry in the name map gets no
    subgraph configuration at all, not even one whose name is the
    identifier itself: the executor is built from [{ name: identifier }],
    with the endpoint that the assembler declared and the handler-level
    operation headers only. *)
Theorem X8_identifier_without_real_name (config : SupergraphConfig)
    (nameMap : gmap string string) (subgraphConfig : SubschemaConfig) :
  nameMap !! ssc_name subgraphConfig = None →
  let executor := onSubschemaConfig config nameMap subgraphConfig in
  eo_spread executor = name_only (ssc_name subgraphConfig)
  ∧ eo_endpoint executor = ssc_endpoint subgraphConfig
  ∧ ∀ executorRequest,
      eo_headers executor executorRequest
      = match cfg_operationHeaders config with
        | Some template =>
            getInterpolatedHeadersFactory (Some template)
              (resolverData_of executorRequest)
        | None => ∅
        end.
Proof.
  intros Hunknown executor.
  assert (subgraphConfiguration_of (default [] (cfg_subgraphs config)) nameMap
            (ssc_name subgraphConfig) = name_only (ssc_name subgraphConfig))
    as Hdefault.
  { apply subgraphConfiguration_of_unmatched. intros c _. by rewrite Hunknown. }
  unfold executor, onSubschemaConfig. simpl. rewrite Hdefault. simpl.
  repeat split. intros executorRequest. rewrite headers_cases. simpl.
  unfold operationHeadersFactory_of.
  destruct (cfg_operationHeaders config); by rewrite (right_id_L ∅ (∪)).
Qed.

(** X9.  The subgraph configuration is looked up by the real name that
    the name map gives for the identifier: the first configuration of that
    name is the one spread into the executor options, whatever comes after
    it; when no configuration has that name, or the handler has no
    [subgraphs] at all, it is [{ name: identifier }]. *)
Theorem X9_configuration_by_real_name (config : SupergraphConfig)
    (nameMap : gmap string string) (subgraphConfig : SubschemaConfig)
    (real : string) :
  nameMap !! ssc_name subgraphConfig = Some real →
  let executor := onSubschemaConfig config nameMap subgraphConfig in
  (∀ c, first_where (λ c, sc_name c = real) c
          (default [] (cfg_subgraphs config)) →
        eo_spread executor = c)
  ∧ ((∀ c, c ∈ default [] (cfg_subgraphs config) → sc_name c ≠ real) →
     eo_spread executor = name_only (ssc_name subgraphConfig))
  ∧ (cfg_subgraphs config = None →
     eo_spread executor = name_only (ssc_name subgraphConfig)).
Proof.
  intros Hreal executor. unfold executor, onSubschemaConfig. simpl.
  split; [|split].
  - intros c Hfirst. by eapply subgraphConfiguration_of_real.
  - intros Hnone. apply subgraphConfiguration_of_unmatched.
    intros c Hc. rewrite Hreal. intros [= Heq]. by apply (Hnone c).
  - intros ->. simpl. apply subgraphConfiguration_of_unmatched.
    by intros c ?%not_elem_of_nil.
Qed.

(** X10.  The headers of a request when a template is missing: without
    a handler-level template they are the evaluated subgraph-level
    template, without a subgraph-level template the evaluated handler-level
    one, and without both there are none. *)
Theorem X10_headers_with_missing_templates (config : SupergraphConfig)
    (nameMap : gmap string string) (subgraphConfig : SubschemaConfig)
    (executorRequest : ExecutorRequest) :
  let subgraphConfiguration :=
    subgraphConfiguration_of (default [] (cfg_subgraphs config)) nameMap
      (ssc_name subgraphConfig) in
  let merged :=
    eo_headers (onSubschemaConfig config nameMap subgraphConfig)
      executorRequest in
  (sc_operationHeaders subgraphConfiguration = None →
   cfg_operationHeaders config = None → merged = ∅)
  ∧ (∀ template,
       sc_operationHeaders subgraphConfiguration = Some template →
       cfg_operationHeaders config = None →
       merged = getInterpolatedHeadersFactory (Some template)
                  (resolverData_of executorRequest))
  ∧ (∀ template,
       sc_operationHeaders subgraphConfiguration = None →
       cfg_operationHeaders config = Some template →
       merged = getInterpolatedHeadersFactory (Some template)
                  (resolverData_of executorRequest)).
Proof.
  intros subgraphConfiguration merged. unfold merged. simpl.
  rewrite headers_cases. fold subgraphConfiguration.
  unfold operationHeadersFactory_of. split; [|split].
  - intros -> ->. apply (left_id_L ∅ (∪)).
  - intros template -> ->. apply (left_id_L ∅ (∪)).
  - intros template -> ->. apply (right_id_L ∅ (∪)).
Qed.

Lemma indexOf_Some_parts pat s n :
  indexOf pat s = Some n →
  substringTo n s +:+ pat +:+ substringFrom (n + String.length pat) s = s.
Proof.
  intros [(pre & post & -> & <-) _]%indexOf_Some.
  by destruct (replace_parts pre pat post) as [-> ->].
Qed.

(** X11.  A URL in which the static endpoint does not occur is passed to
    [fetchFn] as it is: the evaluated endpoint is not used. *)
Theorem X11_fetch_without_occurrence (nonInterpolatedEndpoint url : string)
    (context : option ReqContext) (info : option ReqInfo) :
  (∀ k, ¬ occurs_at nonInterpolatedEndpoint url k) →
  fetch nonInterpolatedEndpoint url context info = url.
Proof. intros Habsent. unfold fetch. by apply replace_absent. Qed.

(** X12.  When the endpoint has no placeholder, so that it evaluates to
    itself, and no dollar sign, the [fetch] callback changes no URL. *)
Theorem X12_fetch_static_endpoint (nonInterpolatedEndpoint : string)
    (context : option ReqContext) (info : option ReqInfo) :
  getInterpolatedStringFactory nonInterpolatedEndpoint
    (fetch_resolverData context info) = nonInterpolatedEndpoint →
  dollar_free nonInterpolatedEndpoint →
  ∀ url, fetch nonInterpolatedEndpoint url context info = url.
Proof.
  intros Hstatic Hfree url. unfold fetch.
  fold (fetch_resolverData context info). rewrite Hstatic.
  rewrite replace_dollar_free by done. unfold replace_literal.
  destruct (indexOf nonInterpolatedEndpoint url) as [n|] eqn:Hn; [|done].
  by apply indexOf_Some_parts.
Qed.

(** X13.  From the document to the executor: in an enum whose values
    have distinct names, the last real name that the directives of a value
    declare selects the first subgraph configuration of that name, and the
    endpoint of that configuration, when it is not empty, is the endpoint
    of the executor of that value's subgraph. *)
Theorem X13_document_to_executor (config : SupergraphConfig)
    (supergraphSdl : DocumentNode) (subgraphConfig : SubschemaConfig)
    (value : EnumValueDefinitionNode) (real endpoint : string)
    (c : SubgraphConfiguration) :
  NoDup (ev_name <$> joingraph_values supergraphSdl) →
  value ∈ joingraph_values supergraphSdl →
  ssc_name subgraphConfig = ev_name value →
  last (declared_names value) = Some real →
  first_where (λ c, sc_name c = real) c (default [] (cfg_subgraphs config)) →
  sc_endpoint c = Some endpoint → endpoint ≠ "" →
  let executor :=
    onSubschemaConfig config (subgraphNameIdMap supergraphSdl)
      subgraphConfig in
  eo_spread executor = c ∧ eo_endpoint executor = endpoint.
Proof.
  intros Hnodup Hvalue Hname Hreal Hfirst Hendpoint Hne executor.
  assert (subgraphNameIdMap supergraphSdl !! ssc_name subgraphConfig
          = Some real) as Hlookup.
  { by rewrite Hname, subgraphNameIdMap_lookup, occurrences_unique. }
  unfold executor, onSubschemaConfig. simpl.
  rewrite (subgraphConfiguration_of_real _ _ _ real c) by done.
  split; [done|]. rewrite Hendpoint. by destruct endpoint.
Qed.
End SubgraphConfigurationFacts.

(** ** More on the name map *)

Section NameMapFurther.

(** X14.  The real name stored for an identifier is, character for
    character, the string literal of the [name] argument (the first of that
    name) of a [join__graph] directive on a value of that identifier in the
    enum that the handler picked: the map holds no name that the document
    does not declare. *)
Theorem X14_entries_are_declared (supergraphSdl : DocumentNode)
    (k real : string) :
  subgraphNameIdMap supergraphSdl !! k = Some real →
  ∃ value ds d args arg,
    value ∈ joingraph_values supergraphSdl ∧ ev_name value = k
    ∧ ev_directives value = Some ds ∧ d ∈ ds
    ∧ dir_name d = "join__graph"
    ∧ dir_arguments d = Some args
    ∧ first_where is_name_argument arg args
    ∧ arg_value arg = StringValue real.
Proof.
  rewrite subgraphNameIdMap_lookup. intros Hlast%last_Some_elem_of.
  apply elem_of_occurrences in Hlast
    as (value & ds & d & Hvalue & Hname & Hds & Hd & Hdeclared).
  apply declared_name_Some in Hdeclared
    as (Hdir & args & arg & Hargs & Harg & Hreal).
  by exists value, ds, d, args, arg.
Qed.

(** X15.  The name map is a function of the first top-level enum named
    [join__Graph] alone: two documents in which that enum is the same have
    the same map, whatever else they define before and after it, later
    enums of the same name included. *)
Theorem X15_only_first_enum_counts (doc1 doc2 : DocumentNode)
    (def : DefinitionNode) :
  first_where is_JoinGraph def (definitions doc1) →
  first_where is_JoinGraph def (definitions doc2) →
  subgraphNameIdMap doc1 = subgraphNameIdMap doc2.
Proof.
  intros Hfirst1%joingraphEnum_first Hfirst2%joingraphEnum_first.
  unfold subgraphNameIdMap. by rewrite Hfirst1, Hfirst2.
Qed.

Lemma last_occurrences_permutation k vs vs' :
  NoDup (ev_name <$> vs) → vs ≡ₚ vs' →
  last (occurrences k vs) = last (occurrences k vs').
Proof.
  intros Hnodup Hperm.
  assert (NoDup (ev_name <$> vs')) as Hnodup' by (by rewrite <- Hperm).
  destruct (decide (k ∈ ev_name <$> vs)) as [Hin|Hout].
  - apply list_elem_of_fmap in Hin as (v & -> & Hv).
    rewrite (occurrences_unique vs v), (occurrences_unique vs' v);
      [done | done | by rewrite <- Hperm | done | done].
  - rewrite (occurrences_absent k vs), (occurrences_absent k vs');
      [done | by rewrite <- Hperm | done].
Qed.

(** X16.  When the values of the enum have distinct names, their order
    does not matter: two documents whose enums list the same values in
    different orders have the same name map. *)
Theorem X16_order_of_values_irrelevant (doc1 doc2 : DocumentNode) :
  NoDup (ev_name <$> joingraph_values doc1) →
  joingraph_values doc1 ≡ₚ joingraph_values doc2 →
  subgraphNameIdMap doc1 = subgraphNameIdMap doc2.
Proof.
  intros Hnodup Hperm. apply map_eq. intros k.
  rewrite !subgraphNameIdMap_lookup. by apply last_occurrences_permutation.
Qed.
End NameMapFurther.

Lemma X8_witness :
  eo_spread
    (@onSubschemaConfig demo_types demo_host config_with_Z
       (subgraphNameIdMap fixture_doc) subgraph_Z) = name_only "Z"
  ∧ eo_endpoint
      (@onSubschemaConfig demo_types demo_host config_with_Z
         (subgraphNameIdMap fixture_doc) subgraph_Z)
    = "https://declared-z/graphql".
Proof.
  destruct (@X8_identifier_without_real_name demo_types demo_host
              config_with_Z (subgraphNameIdMap fixture_doc) subgraph_Z)
    as (Hspread & Hendpoint & _); [by vm_compute|].
  by split.
Defined.

Lemma X9_witness : eo_spread (demo_executor subgraph_A) = svcA_configuration.
Proof.
  apply (@X9_configuration_by_real_name demo_types demo_host
           (demo_config "supergraph.graphql") (subgraphNameIdMap fixture_doc)
           subgraph_A "svcA").
  - by vm_compute.
  - exists [], [ {| sc_name := "svcB"; sc_endpoint := Some "";
                    sc_operationHeaders := None |} ].
    repeat split. apply Forall_nil_2.
Defined.

Lemma X10_witness :
  eo_headers (demo_executor subgraph_B) demo_request
  = @getInterpolatedHeadersFactory demo_types demo_host
      (Some {[ "B" := "3"; "C" := "4" ]})
      (@resolverData_of demo_types demo_host demo_request).
Proof.
  apply (@X10_headers_with_missing_templates demo_types demo_host
           (demo_config "supergraph.graphql") (subgraphNameIdMap fixture_doc)
           subgraph_B demo_request); by vm_compute.
Defined.

Lemma X11_witness :
  @fetch demo_types demo_host "https://svc/{context.tenant}/graphql"
    "https://elsewhere/graphql?op=X" (Some "acme") None
  = "https://elsewhere/graphql?op=X".
Proof.
  apply (@X11_fetch_without_occurrence demo_types demo_host).
  apply indexOf_None. by vm_compute.
Defined.

Lemma X12_witness :
  @fetch demo_types demo_host "https://svc/graphql"
    "https://svc/graphql?op=X" (Some "acme") None
  = "https://svc/graphql?op=X".
Proof.
  apply (@X12_fetch_static_endpoint demo_types demo_host).
  - by vm_compute.
  - apply (bool_decide_unpack _). by vm_compute.
Defined.

Lemma X13_witness :
  eo_endpoint (demo_executor subgraph_A)
  = "https://svc/{context.tenant}/graphql".
Proof.
  apply (@X13_document_to_executor demo_types demo_host
           (demo_config "supergraph.graphql") fixture_doc subgraph_A
           {| ev_name := "A";
              ev_directives := Some [ join_graph (StringValue "svcA") ] |}
           "svcA" "https://svc/{context.tenant}/graphql"
           svcA_configuration).
  - vm_compute. apply NoDup_cons. split; [|apply NoDup_singleton].
    intros Hin%list_elem_of_singleton. discriminate.
  - vm_compute. by left.
  - done.
  - by vm_compute.
  - exists [], [ {| sc_name := "svcB"; sc_endpoint := Some "";
                    sc_operationHeaders := None |} ].
    repeat split. apply Forall_nil_2.
  - done.
  - discriminate.
Defined.

Lemma X14_witness :
  ∃ value, value ∈ joingraph_values fixture_doc ∧ ev_name value = "A".
Proof.
  destruct (X14_entries_are_declared fixture_doc "A" "svcA")
    as (value & ds & d & args & arg & Hvalue & Hname & _); [by vm_compute|].
  by exists value.
Defined.

Lemma X15_witness :
  subgraphNameIdMap surrounded_doc = subgraphNameIdMap fixture_doc.
Proof.
  apply (X15_only_first_enum_counts surrounded_doc fixture_doc
           (EnumTypeDefinition "join__Graph"
              (Some [ {| ev_name := "A";
                         ev_directives :=
                           Some [ join_graph (StringValue "svcA") ] |};
                      {| ev_name := "B";
                         ev_directives :=
                           Some [ join_graph (StringValue "svcB") ] |} ]))).
  - exists [ OtherDefinition SchemaDefinition None;
             OtherDefinition ObjectTypeDefinition (Some "Query") ],
      [ EnumTypeDefinition "join__Graph"
          (Some [ {| ev_name := "C";
                     ev_directives :=
                       Some [ join_graph (StringValue "svcC") ] |} ]);
        OtherDefinition ScalarTypeDefinition (Some "join__FieldSet") ].
    split; [done|]. split; [by eexists|].
    repeat (apply Forall_cons; split; [by intros [? ?]|]). apply Forall_nil_2.
  - exists [], []. split; [done|]. split; [by eexists | apply Forall_nil_2].
Defined.

Lemma X16_witness : subgraphNameIdMap fixture_doc = subgraphNameIdMap swapped_doc.
Proof.
  apply X16_order_of_values_irrelevant.
  - vm_compute. apply NoDup_cons. split; [|apply NoDup_singleton].
    intros Hin%list_elem_of_singleton. discriminate.
  - vm_compute. apply perm_swap.
Defined.
